(** * ArtBoardBuilder: the layered scene of the fingerboard designer

    A shallow embedding of [client/src/pages/designer.tsx]: the component
    state of [FingerboardDesigner], its layer-ordering callbacks, the image
    anchor transform, the compositor ([layerElements]) and the two export
    entry points, followed by the properties the specification states
    about them.

    Conventions.
    - A React state variable is a field of [Designer.t]; a callback is a
      function from the state at the time of the call to the state after
      all of its [set...] calls have been applied.
    - [layer] values are doubles that hold integers.  They are modelled
      as integers ([Z]); the one arithmetic operation the code does on
      them, [maxLayer + 1], is modelled with the rounding of a double
      ([JS.plus1]), which is exact up to [2 ^ 53].  The other JavaScript
      numbers (positions, sizes, angles) are modelled as real numbers:
      their rounding is not modelled.
    - A string is a Rocq string: its characters stand for the code units
      U+0000 to U+00FF.
    - Callbacks run one at a time.  A callback that React calls (a click,
      a change, a pointer press) runs on the state rendered after the one
      before: the values it closes over are those of the current state.
      [handleDragMove] is called by the window, through the listener an
      effect has attached: the state its closure has seen is an argument
      of its own.
    - [Date.now()] is an input of the callbacks that read the clock.
    - What the host does during an [await] (frame boundary, raster
      encoding, archive generation) is an input of the export functions. *)

From Stdlib Require Import List ZArith String Ascii Bool Lia Permutation Sorted.
From Stdlib Require Import DecimalString Reals Lra.
Import ListNotations.

Local Open Scope string_scope.
Local Open Scope list_scope.
Local Open Scope Z_scope.

(** ** JavaScript array and string primitives used by the component *)

Module JS.

Section Arrays.
Context {A : Type}.

(** [Array.prototype.sort(cmp)]: a stable sort (ECMAScript 2019); [a]
    is placed before [b] when [cmp a b < 0] and the relative order of
    elements that compare equal is kept.  Written as a stable
    insertion sort. *)
Fixpoint insert (cmp : A -> A -> Z) (a : A) (l : list A) : list A :=
  match l with
  | [] => [a]
  | b :: l' => if cmp a b <=? 0 then a :: l else b :: insert cmp a l'
  end.

Definition sort (cmp : A -> A -> Z) (l : list A) : list A :=
  fold_right (insert cmp) [] l.

(** [Array.prototype.find]. *)
Definition find (p : A -> bool) (l : list A) : option A := List.find p l.

End Arrays.

(** [Math.max(...xs)] on a non-empty argument list; the component only
    calls it under a [length > 0] guard, the default covers the other
    branch of that conditional. *)
Definition max_or (default : Z) (xs : list Z) : Z :=
  match xs with
  | [] => default
  | x :: xs' => fold_left Z.max xs' x
  end.

(** [s.replace(c, '')] with a one-character string pattern: the first
    occurrence is removed. *)
Fixpoint remove_first (c : ascii) (s : string) : string :=
  match s with
  | EmptyString => EmptyString
  | String d s' => if Ascii.eqb d c then s' else String d (remove_first c s')
  end.

(** [x + 1] on a number that holds an integer.  The numbers of the code
    are IEEE 754 doubles: a sum is the double nearest to the exact
    result and, of two doubles equally near, the one whose significand
    is even.  Every integer up to [2 ^ 53] in absolute value is a
    double; beyond, the doubles around [x] are [2 ^ e] apart, for
    [e = log2 |x| - 52]. *)
Definition nearestDouble (x : Z) : Z :=
  let e := Z.log2 (Z.abs x) - 52 in
  if e <=? 0 then x
  else
    let ulp := 2 ^ e in
    let q := x / ulp in
    let r := x mod ulp in
    if 2 * r <? ulp then q * ulp
    else if ulp <? 2 * r then (q + 1) * ulp
    else if Z.even q then q * ulp
    else (q + 1) * ulp.

Definition plus1 (x : Z) : Z := nearestDouble (x + 1).

(** [`${n}`] and [n.toString()] for an integer. *)
Definition toString (n : Z) : string := NilZero.string_of_int (Z.to_int n).

(** [a || b] on strings: the empty string is falsy. *)
Definition or_else (a b : string) : string :=
  match a with EmptyString => b | _ => a end.

(** Truthiness of a string. *)
Definition truthy (a : string) : bool :=
  match a with EmptyString => false | _ => true end.

End JS.

(** ** Data model *)

(** [interface TextElement]. *)
Module TextElement.
Record t := mk {
  id : string;
  content : string;
  x : R;
  y : R;
  fontSize : R;
  color : string;
  fontFamily : string;
  strokeWidth : R;
  strokeColor : option string;
  layer : Z
}.

(** The object spread [{ ...t, layer: l }]. *)
Definition with_layer (l : Z) (e : t) : t :=
  mk (id e) (content e) (x e) (y e) (fontSize e) (color e) (fontFamily e)
     (strokeWidth e) (strokeColor e) l.
End TextElement.

Inductive ElementType := image | text.

(** [interface LayerElement]. *)
Module LayerElement.
Record t := mk {
  type : ElementType;
  layer : Z;
  data : option TextElement.t
}.
End LayerElement.

(** The anonymous [{ id, layer, type }] objects of [allElementLayers]. *)
Module ElementLayer.
Record t := mk {
  id : string;
  layer : Z;
  type : ElementType
}.
End ElementLayer.

Inductive Stroke := none | thin | thick.

(** The React state of [FingerboardDesigner] that the modelled callbacks
    read or write. *)
Module Designer.
Record t := mk {
  backgroundColor : string;
  showGuides : bool;
  imageUrl : string;
  imageScale : R;
  imageRotation : R;
  imageFlipped : bool;
  imagePosition : R * R;
  imageLayer : Z;
  textElements : list TextElement.t;
  selectedTextId : option string;
  textInput : string;
  textSize : R;
  textColor : string;
  fontFamily : string;
  textStroke : Stroke;
  designName : string;
  batchExportOpen : bool;
  batchColors : list string;
  batchExporting : bool
}.

(** The initial values of the [useState] calls. *)
Definition initial : t :=
  mk "#ffffff" true "" 100%R 0%R false (8%R, 20%R) 0 [] None "" 6%R
     "#0f172a" "Impact" none "" false ["#ffffff"] false.

Definition setBackgroundColor (v : string) (s : t) : t :=
  mk v (showGuides s) (imageUrl s) (imageScale s) (imageRotation s)
     (imageFlipped s) (imagePosition s) (imageLayer s) (textElements s)
     (selectedTextId s) (textInput s) (textSize s) (textColor s)
     (fontFamily s) (textStroke s) (designName s) (batchExportOpen s)
     (batchColors s) (batchExporting s).

Definition setShowGuides (v : bool) (s : t) : t :=
  mk (backgroundColor s) v (imageUrl s) (imageScale s) (imageRotation s)
     (imageFlipped s) (imagePosition s) (imageLayer s) (textElements s)
     (selectedTextId s) (textInput s) (textSize s) (textColor s)
     (fontFamily s) (textStroke s) (designName s) (batchExportOpen s)
     (batchColors s) (batchExporting s).

Definition setImageUrl (v : string) (s : t) : t :=
  mk (backgroundColor s) (showGuides s) v (imageScale s) (imageRotation s)
     (imageFlipped s) (imagePosition s) (imageLayer s) (textElements s)
     (selectedTextId s) (textInput s) (textSize s) (textColor s)
     (fontFamily s) (textStroke s) (designName s) (batchExportOpen s)
     (batchColors s) (batchExporting s).

Definition setImageScale (v : R) (s : t) : t :=
  mk (backgroundColor s) (showGuides s) (imageUrl s) v (imageRotation s)
     (imageFlipped s) (imagePosition s) (imageLayer s) (textElements s)
     (selectedTextId s) (textInput s) (textSize s) (textColor s)
     (fontFamily s) (textStroke s) (designName s) (batchExportOpen s)
     (batchColors s) (batchExporting s).

Definition setImageRotation (v : R) (s : t) : t :=
  mk (backgroundColor s) (showGuides s) (imageUrl s) (imageScale s) v
     (imageFlipped s) (imagePosition s) (imageLayer s) (textElements s)
     (selectedTextId s) (textInput s) (textSize s) (textColor s)
     (fontFamily s) (textStroke s) (designName s) (batchExportOpen s)
     (batchColors s) (batchExporting s).

Definition setImageLayer (v : Z) (s : t) : t :=
  mk (backgroundColor s) (showGuides s) (imageUrl s) (imageScale s)
     (imageRotation s) (imageFlipped s) (imagePosition s) v (textElements s)
     (selectedTextId s) (textInput s) (textSize s) (textColor s)
     (fontFamily s) (textStroke s) (designName s) (batchExportOpen s)
     (batchColors s) (batchExporting s).

Definition setTextElements (v : list TextElement.t) (s : t) : t :=
  mk (backgroundColor s) (showGuides s) (imageUrl s) (imageScale s)
     (imageRotation s) (imageFlipped s) (imagePosition s) (imageLayer s) v
     (selectedTextId s) (textInput s) (textSize s) (textColor s)
     (fontFamily s) (textStroke s) (designName s) (batchExportOpen s)
     (batchColors s) (batchExporting s).

Definition setSelectedTextId (v : option string) (s : t) : t :=
  mk (backgroundColor s) (showGuides s) (imageUrl s) (imageScale s)
     (imageRotation s) (imageFlipped s) (imagePosition s) (imageLayer s)
     (textElements s) v (textInput s) (textSize s) (textColor s)
     (fontFamily s) (textStroke s) (designName s) (batchExportOpen s)
     (batchColors s) (batchExporting s).

Definition setTextInput (v : string) (s : t) : t :=
  mk (backgroundColor s) (showGuides s) (imageUrl s) (imageScale s)
     (imageRotation s) (imageFlipped s) (imagePosition s) (imageLayer s)
     (textElements s) (selectedTextId s) v (textSize s) (textColor s)
     (fontFamily s) (textStroke s) (designName s) (batchExportOpen s)
     (batchColors s) (batchExporting s).

Definition setBatchExportOpen (v : bool) (s : t) : t :=
  mk (backgroundColor s) (showGuides s) (imageUrl s) (imageScale s)
     (imageRotation s) (imageFlipped s) (imagePosition s) (imageLayer s)
     (textElements s) (selectedTextId s) (textInput s) (textSize s)
     (textColor s) (fontFamily s) (textStroke s) (designName s) v
     (batchColors s) (batchExporting s).

Definition setBatchColors (v : list string) (s : t) : t :=
  mk (backgroundColor s) (showGuides s) (imageUrl s) (imageScale s)
     (imageRotation s) (imageFlipped s) (imagePosition s) (imageLayer s)
     (textElements s) (selectedTextId s) (textInput s) (textSize s)
     (textColor s) (fontFamily s) (textStroke s) (designName s)
     (batchExportOpen s) v (batchExporting s).

Definition setBatchExporting (v : bool) (s : t) : t :=
  mk (backgroundColor s) (showGuides s) (imageUrl s) (imageScale s)
     (imageRotation s) (imageFlipped s) (imagePosition s) (imageLayer s)
     (textElements s) (selectedTextId s) (textInput s) (textSize s)
     (textColor s) (fontFamily s) (textStroke s) (designName s)
     (batchExportOpen s) (batchColors s) v.
End Designer.

Import Designer.

(** ** Layer ordering engine (designer.tsx, lines 113-248) *)

Definition strokeWidthOf (st : Stroke) (thinW thickW : R) : R :=
  match st with none => 0%R | thin => thinW | thick => thickW end.

(** [addTextBox]; [now] is the value of [Date.now()]. *)
Definition addTextBox (now : Z) (s : Designer.t) : Designer.t :=
  let maxLayer :=
    JS.max_or (-1) (map TextElement.layer (textElements s)) in
  let newText :=
    TextElement.mk (JS.toString now) "New Text" 16%R 50%R 6%R (textColor s)
      (fontFamily s) (strokeWidthOf (textStroke s) 0.5%R 1%R)
      (match textStroke s with none => None | _ => Some "#ffffff" end)
      (JS.plus1 maxLayer) in
  setTextInput (TextElement.content newText)
    (setSelectedTextId (Some (TextElement.id newText))
       (setTextElements (textElements s ++ [newText]) s)).

Inductive Toast :=
| EnterSomeText
| BatchExportComplete (n : nat)
| BatchExportFailed
| DesignExported
| ExportFailed.

(** [textInput.trim()] is empty: the string holds only what [trim]
    strips, the white space and line terminators of ECMAScript.  Among
    the code units below 256 these are U+0009 to U+000D, U+0020 and
    U+00A0. *)
Definition is_space (c : ascii) : bool :=
  match nat_of_ascii c with
  | 9%nat | 10%nat | 11%nat | 12%nat | 13%nat | 32%nat | 160%nat => true
  | _ => false
  end.

Fixpoint blank (s : string) : bool :=
  match s with
  | EmptyString => true
  | String c s' => is_space c && blank s'
  end.

(** [addTextElement]; returns the new state and the toast it shows, if
    any. *)
Definition addTextElement (now : Z) (s : Designer.t)
  : Designer.t * option Toast :=
  if blank (textInput s) then (s, Some EnterSomeText)
  else
    let maxLayer :=
      JS.max_or (-1) (map TextElement.layer (textElements s)) in
    let newElement :=
      TextElement.mk (String.append "text-" (JS.toString now)) (textInput s) 16%R 52.5%R
        (textSize s) (textColor s) (fontFamily s)
        (strokeWidthOf (textStroke s) 0.3%R 0.6%R)
        (Some (if String.eqb (textColor s) "#ffffff" then "#000000"
               else "#ffffff"))
        (JS.plus1 maxLayer) in
    (setTextInput ""
       (setSelectedTextId (Some (TextElement.id newElement))
          (setTextElements (textElements s ++ [newElement]) s)),
     None).

(** [deleteTextBox]. *)
Definition deleteTextBox (id : string) (s : Designer.t) : Designer.t :=
  let s' :=
    setTextElements
      (filter (fun t => negb (String.eqb (TextElement.id t) id))
         (textElements s)) s in
  match selectedTextId s with
  | Some sel =>
      if String.eqb sel id then setTextInput "" (setSelectedTextId None s')
      else s'
  | None => s'
  end.

(** [uploadMutation.onSuccess] and the local-preview fallback of
    [onError]: the "add image" action.  It only sets the source; the
    image keeps the layer held in [imageLayer]. *)
Definition addImage (url : string) (s : Designer.t) : Designer.t :=
  setImageUrl url s.

(** [allElementLayers] of [moveLayerUp] and [moveLayerDown]. *)
Definition allElementLayers (s : Designer.t) : list ElementLayer.t :=
  map (fun t => ElementLayer.mk (TextElement.id t) (TextElement.layer t) text)
    (textElements s)
  ++ [ElementLayer.mk "image" (imageLayer s) image].

(** [moveLayerUp]. *)
Definition moveLayerUp (id : string) (s : Designer.t) : Designer.t :=
  let prev := textElements s in
  match JS.find (fun t => String.eqb (TextElement.id t) id) prev with
  | None => s
  | Some element =>
      let higherLayers :=
        JS.sort (fun a b => ElementLayer.layer a - ElementLayer.layer b)
          (filter (fun e => ElementLayer.layer e >? TextElement.layer element)
             (allElementLayers s)) in
      match higherLayers with
      | [] => s
      | nextHigher :: _ =>
          let targetLayer := ElementLayer.layer nextHigher in
          let s' :=
            match ElementLayer.type nextHigher with
            | image => setImageLayer (TextElement.layer element) s
            | text => s
            end in
          setTextElements
            (map (fun t =>
                    if String.eqb (TextElement.id t) id
                    then TextElement.with_layer targetLayer t
                    else if (TextElement.layer t =? targetLayer)
                            && negb (String.eqb (TextElement.id t) id)
                    then TextElement.with_layer (TextElement.layer element) t
                    else t) prev) s'
      end
  end.

(** [moveLayerDown]. *)
Definition moveLayerDown (id : string) (s : Designer.t) : Designer.t :=
  let prev := textElements s in
  match JS.find (fun t => String.eqb (TextElement.id t) id) prev with
  | None => s
  | Some element =>
      let lowerLayers :=
        JS.sort (fun a b => ElementLayer.layer b - ElementLayer.layer a)
          (filter (fun e => ElementLayer.layer e <? TextElement.layer element)
             (allElementLayers s)) in
      match lowerLayers with
      | [] => s
      | nextLower :: _ =>
          let targetLayer := ElementLayer.layer nextLower in
          let s' :=
            match ElementLayer.type nextLower with
            | image => setImageLayer (TextElement.layer element) s
            | text => s
            end in
          setTextElements
            (map (fun t =>
                    if String.eqb (TextElement.id t) id
                    then TextElement.with_layer targetLayer t
                    else if (TextElement.layer t =? targetLayer)
                            && negb (String.eqb (TextElement.id t) id)
                    then TextElement.with_layer (TextElement.layer element) t
                    else t) prev) s'
      end
  end.

(** [moveImageLayerUp]; its [allElementLayers] holds [{ id, layer }] of
    the text elements only. *)
Definition moveImageLayerUp (s : Designer.t) : Designer.t :=
  let allElementLayers :=
    map (fun t => (TextElement.id t, TextElement.layer t)) (textElements s) in
  let higherLayers :=
    JS.sort (fun a b => snd a - snd b)
      (filter (fun e => snd e >? imageLayer s) allElementLayers) in
  match higherLayers with
  | [] => s
  | nextHigher :: _ =>
      let targetLayer := snd nextHigher in
      let oldImageLayer := imageLayer s in
      setTextElements
        (map (fun t =>
                if String.eqb (TextElement.id t) (fst nextHigher)
                then TextElement.with_layer oldImageLayer t else t)
           (textElements s))
        (setImageLayer targetLayer s)
  end.

(** [moveImageLayerDown]. *)
Definition moveImageLayerDown (s : Designer.t) : Designer.t :=
  let allElementLayers :=
    map (fun t => (TextElement.id t, TextElement.layer t)) (textElements s) in
  let lowerLayers :=
    JS.sort (fun a b => snd b - snd a)
      (filter (fun e => snd e <? imageLayer s) allElementLayers) in
  match lowerLayers with
  | [] => s
  | nextLower :: _ =>
      let targetLayer := snd nextLower in
      let oldImageLayer := imageLayer s in
      setTextElements
        (map (fun t =>
                if String.eqb (TextElement.id t) (fst nextLower)
                then TextElement.with_layer oldImageLayer t else t)
           (textElements s))
        (setImageLayer targetLayer s)
  end.

(** The elements of a scene, as the specification names them: the image
    and the text elements by identifier. *)
Inductive Element :=
| Image
| Text (id : string).

(** [moveUp(element)] and [moveDown(element)]: the callback the interface
    binds to the element's kind. *)
Definition moveUp (e : Element) (s : Designer.t) : Designer.t :=
  match e with
  | Image => moveImageLayerUp s
  | Text id => moveLayerUp id s
  end.

Definition moveDown (e : Element) (s : Designer.t) : Designer.t :=
  match e with
  | Image => moveImageLayerDown s
  | Text id => moveLayerDown id s
  end.

(** [allLayers] of the text list's row (designer.tsx, line 956): the
    layers of every text element and of the image. *)
Definition allLayers (s : Designer.t) : list Z :=
  map TextElement.layer (textElements s) ++ [imageLayer s].

(** [t => t.id === id]. *)
Definition hasId (id : string) (t : TextElement.t) : bool :=
  String.eqb (TextElement.id t) id.

(** The layer of an element of the scene. *)
Definition layerOf (s : Designer.t) (e : Element) : option Z :=
  match e with
  | Image => Some (imageLayer s)
  | Text id =>
      option_map TextElement.layer (JS.find (hasId id) (textElements s))
  end.

(** The user actions on the scene's elements. *)
Inductive Action :=
| AddTextBox (now : Z)
| AddTextElement (now : Z)
| AddImage (url : string)
| DeleteTextBox (id : string)
| MoveUp (e : Element)
| MoveDown (e : Element).

Definition act (a : Action) (s : Designer.t) : Designer.t :=
  match a with
  | AddTextBox now => addTextBox now s
  | AddTextElement now => fst (addTextElement now s)
  | AddImage url => addImage url s
  | DeleteTextBox id => deleteTextBox id s
  | MoveUp e => moveUp e s
  | MoveDown e => moveDown e s
  end.

Definition run (actions : list Action) (s : Designer.t) : Designer.t :=
  fold_left (fun s a => act a s) actions s.

(** The layers of the live elements: every text element, and the image
    once a source has been set. *)
Definition liveLayers (s : Designer.t) : list Z :=
  map TextElement.layer (textElements s)
  ++ (if JS.truthy (imageUrl s) then [imageLayer s] else []).

(** ** Anchor/transform calculator (designer.tsx, lines 717-725) *)

Definition imageWidth (s : Designer.t) : R := (16 * (imageScale s / 100))%R.
Definition imageHeight (s : Designer.t) : R := (40 * (imageScale s / 100))%R.
Definition imageCenterX (s : Designer.t) : R := fst (imagePosition s).
Definition imageCenterY (s : Designer.t) : R := snd (imagePosition s).
Definition imageX (s : Designer.t) : R :=
  (imageCenterX s - imageWidth s / 2)%R.
Definition imageY (s : Designer.t) : R :=
  (imageCenterY s - imageHeight s / 2)%R.

(** The transform functions of an SVG [transform] attribute. *)
Inductive Transform :=
| translate (tx ty : R)
| rotate (angle cx cy : R)
| scale (sx sy : R).

(** [imageTransform]: the template string, as the list of its transform
    functions. *)
Definition imageTransform (s : Designer.t) : list Transform :=
  [translate (imageX s) (imageY s);
   rotate (imageRotation s) (imageWidth s / 2) (imageHeight s / 2);
   scale 1 (if imageFlipped s then -1 else 1)].

(** What the rendering surface makes of a transform list (SVG 1.1,
    section 7.6): each function maps a point of the inner coordinate
    system to the outer one, angles are in degrees and [rotate(a cx cy)]
    turns about [(cx, cy)]; the rightmost function applies first. *)
Definition radians (deg : R) : R := (deg * PI / 180)%R.

Definition applyTransform (t : Transform) (p : R * R) : R * R :=
  match t with
  | translate tx ty => (fst p + tx, snd p + ty)%R
  | rotate a cx cy =>
      let c := cos (radians a) in
      let sn := sin (radians a) in
      let dx := (fst p - cx)%R in
      let dy := (snd p - cy)%R in
      (cx + (c * dx - sn * dy), cy + (sn * dx + c * dy))%R
  | scale sx sy => (sx * fst p, sy * snd p)%R
  end.

Definition applyTransforms (ts : list Transform) (p : R * R) : R * R :=
  fold_right applyTransform p ts.

(** The [<image>] element is [imageWidth] by [imageHeight] in its own
    coordinate system, with its top-left corner at the origin. *)
Definition boxCenter (s : Designer.t) : R * R :=
  (imageWidth s / 2, imageHeight s / 2)%R.

(** ** Scene compositor (designer.tsx, lines 727-739 and 803-843) *)

Definition imageEntry (s : Designer.t) : LayerElement.t :=
  LayerElement.mk image (imageLayer s) None.

Definition textEntry (t : TextElement.t) : LayerElement.t :=
  LayerElement.mk text (TextElement.layer t) (Some t).

(** The pushes that fill [layerElements] before it is sorted. *)
Definition layerEntries (s : Designer.t) : list LayerElement.t :=
  (if JS.truthy (imageUrl s) then [imageEntry s] else [])
  ++ map textEntry (textElements s).

(** [layerElements] after [layerElements.sort(...)]. *)
Definition layerElements (s : Designer.t) : list LayerElement.t :=
  JS.sort (fun a b => LayerElement.layer a - LayerElement.layer b)
    (layerEntries s).

(** The nodes [layerElements.map(...)] puts in the [<svg>], in document
    order: the surface paints them in that order, the first one furthest
    back. *)
Inductive SvgNode :=
| ImageNode (href : string) (width height : R) (transform : list Transform)
| TextNode (t : TextElement.t).

Definition renderLayer (s : Designer.t) (element : LayerElement.t)
  : option SvgNode :=
  match LayerElement.type element with
  | image =>
      Some (ImageNode (imageUrl s) (imageWidth s) (imageHeight s)
              (imageTransform s))
  | text =>
      match LayerElement.data element with
      | Some t => Some (TextNode t)
      | None => None
      end
  end.

Definition renderLayers (s : Designer.t) : list (option SvgNode) :=
  map (renderLayer s) (layerElements s).

(** ** Export pipeline (designer.tsx, lines 463-608) *)

(** A raster of the surface: it shows the scene that was rendered when
    the surface was serialised. *)
Inductive Blob := Png (rendered : Designer.t).

(** A [JSZip] archive: its entries by name, in insertion order.
    [zip.file(name, data)] adds the entry, or replaces the data of the
    entry that already has this name. *)
Definition JSZip := list (string * Blob).

Fixpoint zip_file (name : string) (data : Blob) (zip : JSZip) : JSZip :=
  match zip with
  | [] => [(name, data)]
  | (n, b) :: zip' =>
      if String.eqb n name then (name, data) :: zip'
      else (n, b) :: zip_file name data zip'
  end.

Inductive Payload :=
| PngFile (b : Blob)
| ZipFile (zip : JSZip).

(** The editing session as the export functions see it: the component
    state and what they have done to the host so far, that is the
    toasts shown, the files handed to the browser ([a.click()]) and the
    scenes serialised ([serializeToString]). *)
Record World := mkWorld {
  designer : Designer.t;
  toasts : list Toast;
  downloads : list (string * Payload);
  serialized : list Designer.t
}.

Definition onDesigner (f : Designer.t -> Designer.t) (w : World) : World :=
  mkWorld (f (designer w)) (toasts w) (downloads w) (serialized w).

Definition toast (t : Toast) (w : World) : World :=
  mkWorld (designer w) (toasts w ++ [t]) (downloads w) (serialized w).

Definition download (name : string) (p : Payload) (w : World) : World :=
  mkWorld (designer w) (toasts w) (downloads w ++ [(name, p)]) (serialized w).

(** [new XMLSerializer().serializeToString(svgRef.current)], after the
    awaited frame: the surface shows the current state. *)
Definition serializeToString (w : World) : World :=
  mkWorld (designer w) (toasts w) (downloads w) (serialized w ++ [designer w]).

(** How the host answers the conversion of one serialised surface:
    [img.onload] and [canvas.toBlob] with a blob, [toBlob] with [null],
    or [img.onerror]. *)
Inductive Raster := Encoded | BlobNull | LoadError.

(** [exportMutation.mutate()]: [mutationFn], then [onSuccess] or
    [onError].  [mounted] tells whether [svgRef.current] is set; the
    surface belongs to the component, so it is still there, and can be
    serialised, after the awaited frame. *)
Definition exportMutation (mounted : bool) (raster : Raster) (now : Z)
           (w : World) : World :=
  if negb mounted then toast ExportFailed w
  else
    let originalShowGuides := showGuides (designer w) in
    let w1 := onDesigner (setShowGuides false) w in
    let svgData := designer w1 in
    let w2 := serializeToString w1 in
    let w3 := onDesigner (setShowGuides originalShowGuides) w2 in
    match raster with
    | Encoded =>
        toast DesignExported
          (download
             (String.append "fingerboard-design-"
                (String.append (JS.toString now) ".png"))
             (PngFile (Png svgData)) w3)
    | BlobNull | LoadError => toast ExportFailed w3
    end.

(** What the host does while one variant of a batch is captured. *)
Record Frame := mkFrame {
  mounted : bool;    (* [svgRef.current] at line 549 *)
  raster : Raster
}.

(** [`${designName || 'design'}-${colorName}.png`]. *)
Definition entryName (designName color : string) : string :=
  String.append (JS.or_else designName "design")
    (String.append "-"
       (String.append (JS.remove_first "#"%char color) ".png")).

(** The outcome of the [try] block. *)
Inductive Completion (A : Type) :=
| Normal (a : A)
| Thrown.
Arguments Normal {A} a.
Arguments Thrown {A}.

(** The [for] loop of [handleBatchExport], from index [i] on. *)
Fixpoint captureLoop (host : nat -> Frame) (designName : string) (i : nat)
         (colors : list string) (zip : JSZip) (w : World)
  : Completion JSZip * World :=
  match colors with
  | [] => (Normal zip, w)
  | color :: rest =>
      let w1 := onDesigner (setBackgroundColor color) w in
      if negb (mounted (host i))
      then captureLoop host designName (S i) rest zip w1
      else
        let svgData := designer w1 in
        let w2 := serializeToString w1 in
        match raster (host i) with
        | Encoded =>
            captureLoop host designName (S i) rest
              (zip_file (entryName designName color) (Png svgData) zip) w2
        | BlobNull | LoadError => (Thrown, w2)
        end
  end.

(** [handleBatchExport].  [surface] tells whether [svgRef.current] is
    set when it is called, [host] what happens at each variant, and
    [generated] whether [zip.generateAsync] resolves. *)
Definition handleBatchExport (surface : bool) (host : nat -> Frame)
           (generated : bool) (w : World) : World :=
  let s := designer w in
  if negb surface || (List.length (batchColors s) =? 0)%nat then w
  else
    let w1 := onDesigner (setBatchExporting true) w in
    let zip : JSZip := [] in
    let originalColor := backgroundColor s in
    let originalShowGuides := showGuides s in
    let w2 := onDesigner (setShowGuides false) w1 in
    let (completion, w3) :=
      captureLoop host (designName s) 0 (batchColors s) zip w2 in
    let w4 :=
      match completion with
      | Normal zip' =>
          if generated then
            onDesigner (setBatchExportOpen false)
              (toast (BatchExportComplete (List.length (batchColors s)))
                 (download
                    (String.append
                       (JS.or_else (designName s) "fingerboard-designs")
                       "-batch.zip")
                    (ZipFile zip') w3))
          else toast BatchExportFailed w3
      | Thrown => toast BatchExportFailed w3
      end in
    onDesigner
      (fun d =>
         setBatchExporting false
           (setShowGuides originalShowGuides
              (setBackgroundColor originalColor d))) w4.

(** ** Facts about the JavaScript primitives *)

Section SortFacts.
Context {A : Type}.
Variable cmp : A -> A -> Z.

(** The element a stable ascending sort puts first: the earliest of
    the least elements. *)
Fixpoint first_least (l : list A) : option A :=
  match l with
  | [] => None
  | a :: l' =>
      match first_least l' with
      | None => Some a
      | Some b => if cmp a b <=? 0 then Some a else Some b
      end
  end.

Lemma hd_insert (a : A) (l : list A) :
  hd_error (JS.insert cmp a l) =
  match hd_error l with
  | None => Some a
  | Some b => if cmp a b <=? 0 then Some a else Some b
  end.
Proof.
  destruct l as [|b l]; simpl; [reflexivity|].
  destruct (cmp a b <=? 0); reflexivity.
Qed.

Lemma hd_sort (l : list A) : hd_error (JS.sort cmp l) = first_least l.
Proof.
  induction l as [|a l IH]; simpl; [reflexivity|].
  rewrite hd_insert. fold (JS.sort cmp l). rewrite IH. reflexivity.
Qed.

Lemma insert_perm (a : A) (l : list A) :
  Permutation (JS.insert cmp a l) (a :: l).
Proof.
  induction l as [|b l IH]; simpl; [reflexivity|].
  destruct (cmp a b <=? 0); [reflexivity|].
  rewrite IH. apply perm_swap.
Qed.

Lemma sort_perm (l : list A) : Permutation (JS.sort cmp l) l.
Proof.
  induction l as [|a l IH]; simpl; [reflexivity|].
  fold (JS.sort cmp l). rewrite insert_perm. now constructor.
Qed.

Lemma first_least_None (l : list A) : first_least l = None -> l = [].
Proof.
  destruct l as [|a l]; simpl; [reflexivity|].
  destruct (first_least l); [destruct (cmp a a0 <=? 0)|]; discriminate.
Qed.

(** The comparator orders by a key, as [(a, b) => a.layer - b.layer]
    and [(a, b) => b.layer - a.layer] do. *)
Variable key : A -> Z.
Hypothesis cmp_key : forall a b, cmp a b <= 0 <-> key a <= key b.

Lemma first_least_spec (l : list A) (m : A) :
  first_least l = Some m ->
  exists l1 l2, l = l1 ++ m :: l2
    /\ (forall a, In a l1 -> key m < key a)
    /\ (forall a, In a l2 -> key m <= key a).
Proof.
  revert m. induction l as [|a l IH]; simpl; intros m H; [discriminate|].
  destruct (first_least l) as [b|] eqn:E.
  - destruct (IH b eq_refl) as (l1 & l2 & -> & H1 & H2).
    destruct (cmp a b <=? 0) eqn:C; inversion H; subst; clear H.
    + apply Z.leb_le, cmp_key in C.
      exists [], (l1 ++ b :: l2). repeat split; [intros ? []|].
      intros c Hc. apply in_app_or in Hc.
      destruct Hc as [Hc | [ <- | Hc] ]; [apply H1 in Hc|..|apply H2 in Hc]; lia.
    + apply Z.leb_gt in C.
      assert (key m < key a).
      { destruct (Z.le_gt_cases (key a) (key m)) as [Hle|]; [|assumption].
        apply cmp_key in Hle. lia. }
      exists (a :: l1), l2. repeat split; [|assumption].
      intros c [<-|Hc]; [assumption|now apply H1].
  - apply first_least_None in E. subst. inversion H; subst.
    exists [], []. repeat split; intros ? [].
Qed.

Lemma insert_sorted (a : A) (l : list A) :
  StronglySorted (fun b c => key b <= key c) l ->
  StronglySorted (fun b c => key b <= key c) (JS.insert cmp a l).
Proof.
  induction 1 as [|b l Hs IH Hb]; simpl.
  - repeat constructor.
  - destruct (cmp a b <=? 0) eqn:C.
    + apply Z.leb_le, cmp_key in C.
      constructor; [now constructor|].
      constructor; [assumption|].
      eapply Forall_impl; [|exact Hb]. simpl. intros; lia.
    + apply Z.leb_gt in C.
      assert (key b <= key a).
      { destruct (Z.le_gt_cases (key b) (key a)) as [|Hgt]; [assumption|].
        assert (key a <= key b) as Hle by lia.
        apply cmp_key in Hle. lia. }
      constructor; [assumption|].
      eapply Permutation_Forall; [symmetry; apply insert_perm|].
      now constructor.
Qed.

Lemma sort_sorted (l : list A) :
  StronglySorted (fun b c => key b <= key c) (JS.sort cmp l).
Proof.
  induction l as [|a l IH]; simpl; [constructor|].
  now apply insert_sorted.
Qed.

End SortFacts.

Section ListFacts.
Context {A B : Type}.

Lemma NoDup_map_eq (f : A -> B) (l : list A) (a b : A) :
  NoDup (map f l) -> In a l -> In b l -> f a = f b -> a = b.
Proof.
  induction l as [|c l IH]; simpl; intros Hnd Ha Hb E; [contradiction|].
  inversion Hnd as [|? ? Hc Hl]; subst.
  destruct Ha as [->|Ha], Hb as [->|Hb]; auto.
  - exfalso. apply Hc. rewrite E. now apply in_map.
  - exfalso. apply Hc. rewrite <- E. now apply in_map.
Qed.

End ListFacts.

(** ** The four move callbacks as two, indexed by direction *)

Inductive Dir := Up | Down.

(** [v] lies beyond [l] in direction [d]: the [filter] predicates. *)
Definition beyond (d : Dir) (l v : Z) : bool :=
  match d with Up => v >? l | Down => v <? l end.

(** The [sort] comparators on layers. *)
Definition cmpDir (d : Dir) (a b : Z) : Z :=
  match d with Up => a - b | Down => b - a end.

Definition keyDir (d : Dir) (v : Z) : Z :=
  match d with Up => v | Down => - v end.

Lemma cmpDir_key (d : Dir) (a b : Z) :
  cmpDir d a b <= 0 <-> keyDir d a <= keyDir d b.
Proof. destruct d; simpl; lia. Qed.

Lemma beyond_key (d : Dir) (l v : Z) :
  beyond d l v = true <-> keyDir d l < keyDir d v.
Proof.
  destruct d; simpl; [rewrite Z.gtb_lt|rewrite Z.ltb_lt]; lia.
Qed.

Definition moveLayer (d : Dir) (id : string) (s : Designer.t) : Designer.t :=
  let prev := textElements s in
  match JS.find (hasId id) prev with
  | None => s
  | Some element =>
      match
        JS.sort
          (fun a b => cmpDir d (ElementLayer.layer a) (ElementLayer.layer b))
          (filter
             (fun e => beyond d (TextElement.layer element)
                         (ElementLayer.layer e))
             (allElementLayers s))
      with
      | [] => s
      | next :: _ =>
          let targetLayer := ElementLayer.layer next in
          let s' :=
            match ElementLayer.type next with
            | image => setImageLayer (TextElement.layer element) s
            | text => s
            end in
          setTextElements
            (map (fun t =>
                    if String.eqb (TextElement.id t) id
                    then TextElement.with_layer targetLayer t
                    else if (TextElement.layer t =? targetLayer)
                            && negb (String.eqb (TextElement.id t) id)
                    then TextElement.with_layer (TextElement.layer element) t
                    else t) prev) s'
      end
  end.

Definition moveImageLayer (d : Dir) (s : Designer.t) : Designer.t :=
  match
    JS.sort (fun a b => cmpDir d (snd a) (snd b))
      (filter (fun e => beyond d (imageLayer s) (snd e))
         (map (fun t => (TextElement.id t, TextElement.layer t))
            (textElements s)))
  with
  | [] => s
  | next :: _ =>
      setTextElements
        (map (fun t =>
                if String.eqb (TextElement.id t) (fst next)
                then TextElement.with_layer (imageLayer s) t else t)
           (textElements s))
        (setImageLayer (snd next) s)
  end.

Definition move (d : Dir) (e : Element) (s : Designer.t) : Designer.t :=
  match e with
  | Image => moveImageLayer d s
  | Text id => moveLayer d id s
  end.

Lemma moveUp_move (e : Element) (s : Designer.t) : moveUp e s = move Up e s.
Proof. destruct e; reflexivity. Qed.

Lemma moveDown_move (e : Element) (s : Designer.t) :
  moveDown e s = move Down e s.
Proof. destruct e; reflexivity. Qed.

(** ** Well-formed scenes *)

Definition ids (s : Designer.t) : list string :=
  map TextElement.id (textElements s).

Definition textLayers (s : Designer.t) : list Z :=
  map TextElement.layer (textElements s).

(** Exchange of two layer values. *)
Definition transp (a b v : Z) : Z :=
  if v =? a then b else if v =? b then a else v.

Definition relayer (f : Z -> Z) (t : TextElement.t) : TextElement.t :=
  TextElement.with_layer (f (TextElement.layer t)) t.

Lemma with_layer_same (t : TextElement.t) :
  TextElement.with_layer (TextElement.layer t) t = t.
Proof. destruct t; reflexivity. Qed.

Ltac case_eqb :=
  repeat match goal with
         | |- context [Z.eqb ?x ?y] =>
             is_var x; is_var y; destruct (Z.eqb_spec x y)
         end;
  repeat match goal with
         | |- context [Z.eqb ?x ?y] => destruct (Z.eqb_spec x y)
         end;
  try lia; try congruence.

Lemma transp_l (a b : Z) : transp a b a = b.
Proof. unfold transp. now rewrite Z.eqb_refl. Qed.

Lemma transp_r (a b : Z) : transp a b b = a.
Proof.
  unfold transp. rewrite Z.eqb_refl.
  destruct (Z.eqb_spec b a); congruence.
Qed.

Lemma transp_other (a b v : Z) : v <> a -> v <> b -> transp a b v = v.
Proof.
  unfold transp. intros Ha Hb.
  destruct (Z.eqb_spec v a), (Z.eqb_spec v b); congruence.
Qed.

Lemma transp_invol (a b v : Z) : transp a b (transp a b v) = v.
Proof. unfold transp. case_eqb. Qed.

Lemma NoDup_map_inj {A B : Type} (f : A -> B) (l : list A) :
  (forall a b, f a = f b -> a = b) -> NoDup l -> NoDup (map f l).
Proof.
  intros Hf. induction 1 as [|a l Ha Hl IH]; simpl; constructor; auto.
  intros Hin. apply in_map_iff in Hin. destruct Hin as (b & E & Hb).
  apply Hf in E. now subst.
Qed.

Lemma transp_perm (a b : Z) (l : list Z) :
  NoDup l -> In a l -> In b l -> Permutation (map (transp a b) l) l.
Proof.
  intros Hnd Ha Hb.
  assert (forall v, In v l -> In (transp a b v) l) as Hin.
  { intros v Hv. unfold transp.
    destruct (Z.eqb_spec v a); [assumption|].
    destruct (Z.eqb_spec v b); assumption. }
  apply NoDup_Permutation; [|assumption|].
  - apply NoDup_map_inj; [|assumption].
    intros u v E. rewrite <- (transp_invol a b u), E. apply transp_invol.
  - intros v. split.
    + intros Hv. apply in_map_iff in Hv. destruct Hv as (u & <- & Hu). auto.
    + intros Hv. apply in_map_iff. exists (transp a b v).
      split; [apply transp_invol|auto].
Qed.

Section FindFacts.
Variable l : list TextElement.t.

Lemma find_hasId (i : string) (t : TextElement.t) :
  JS.find (hasId i) l = Some t -> In t l /\ TextElement.id t = i.
Proof.
  intros H. apply find_some in H. destruct H as [H E].
  split; [assumption|]. now apply String.eqb_eq.
Qed.

Lemma find_hasId_None (i : string) :
  JS.find (hasId i) l = None -> ~ In i (map TextElement.id l).
Proof.
  intros H Hin. apply in_map_iff in Hin. destruct Hin as (t & <- & Ht).
  apply (find_none _ _ H) in Ht. unfold hasId in Ht.
  now rewrite String.eqb_refl in Ht.
Qed.

Lemma find_hasId_In (t : TextElement.t) :
  NoDup (map TextElement.id l) -> In t l ->
  JS.find (hasId (TextElement.id t)) l = Some t.
Proof.
  intros Hnd Ht.
  destruct (JS.find (hasId (TextElement.id t)) l) as [u|] eqn:E.
  - apply find_hasId in E. destruct E as [Hu E].
    f_equal. eapply NoDup_map_eq; eauto.
  - apply find_hasId_None in E. exfalso. apply E. now apply in_map.
Qed.

Lemma find_hasId_map (f : TextElement.t -> TextElement.t) (i : string) :
  (forall t, TextElement.id (f t) = TextElement.id t) ->
  JS.find (hasId i) (map f l) = option_map f (JS.find (hasId i) l).
Proof.
  intros Hf. unfold JS.find. induction l as [|t l' IH]; [reflexivity|].
  simpl. unfold hasId at 1 3. rewrite Hf.
  destruct (String.eqb (TextElement.id t) i); [reflexivity|apply IH].
Qed.

End FindFacts.

Lemma app_last_unique {A : Type} (l1 l2 F : list A) (m : A) :
  l1 ++ m :: l2 = F ++ [m] -> ~ In m F -> l2 = [] /\ l1 = F.
Proof.
  intros E Hm. destruct l2 as [|z l2].
  - apply app_inj_tail in E. now destruct E.
  - exfalso. destruct (exists_last (l := z :: l2)) as (l2' & y & E2);
      [discriminate|].
    rewrite E2 in E.
    change (l1 ++ m :: l2' ++ [y]) with (l1 ++ (m :: l2') ++ [y]) in E.
    rewrite app_assoc in E. apply app_inj_tail in E. destruct E as [<- _].
    apply Hm, in_elt.
Qed.

(** The scene's text elements have distinct identifiers and distinct
    layers. *)
Definition wfTexts (s : Designer.t) : Prop :=
  NoDup (ids s) /\ NoDup (textLayers s).

(** Every layer of the scene, the image's included, is distinct. *)
Definition wfScene (s : Designer.t) : Prop :=
  NoDup (ids s) /\ NoDup (allLayers s).

Lemma wfScene_wfTexts (s : Designer.t) : wfScene s -> wfTexts s.
Proof.
  intros [Hi Hl]. split; [assumption|].
  unfold allLayers in Hl. now apply NoDup_app_remove_r in Hl.
Qed.

Definition refOf (t : TextElement.t) : ElementLayer.t :=
  ElementLayer.mk (TextElement.id t) (TextElement.layer t) text.

Definition imageRef (s : Designer.t) : ElementLayer.t :=
  ElementLayer.mk "image" (imageLayer s) image.

(** The head of [higherLayers] ([Up]) or [lowerLayers] ([Down]) in
    [moveLayer], for a target at layer [l]. *)
Definition nextBeyond (d : Dir) (l : Z) (s : Designer.t)
  : option ElementLayer.t :=
  first_least
    (fun a b => cmpDir d (ElementLayer.layer a) (ElementLayer.layer b))
    (filter (fun e => beyond d l (ElementLayer.layer e))
       (allElementLayers s)).

Definition elementOf (m : ElementLayer.t) : Element :=
  match ElementLayer.type m with
  | image => Image
  | text => Text (ElementLayer.id m)
  end.

Section NextBeyond.
Variables (d : Dir) (l : Z) (s : Designer.t).

Lemma in_allElementLayers (m : ElementLayer.t) :
  In m (allElementLayers s) <->
  (exists t, In t (textElements s) /\ m = refOf t) \/ m = imageRef s.
Proof.
  unfold allElementLayers. rewrite in_app_iff, in_map_iff. simpl.
  split.
  - intros [(t & <- & Ht) | [ <- | [] ] ]; [left; now exists t|now right].
  - intros [(t & Ht & ->) | ->]; [left; now exists t|right; now left].
Qed.

Lemma nextBeyond_None :
  nextBeyond d l s = None ->
  forall m, In m (allElementLayers s) ->
            keyDir d (ElementLayer.layer m) <= keyDir d l.
Proof.
  intros H m Hm. apply first_least_None in H.
  destruct (beyond d l (ElementLayer.layer m)) eqn:B.
  - assert (In m (filter (fun e => beyond d l (ElementLayer.layer e))
                    (allElementLayers s))) as Hin
      by (apply filter_In; now split).
    rewrite H in Hin. destruct Hin.
  - destruct (Z.le_gt_cases (keyDir d (ElementLayer.layer m)) (keyDir d l))
      as [|Hgt]; [assumption|].
    apply beyond_key in Hgt. congruence.
Qed.

Lemma nextBeyond_Some (m : ElementLayer.t) :
  nextBeyond d l s = Some m ->
  In m (allElementLayers s)
  /\ keyDir d l < keyDir d (ElementLayer.layer m)
  /\ (forall a, In a (allElementLayers s) ->
                keyDir d l < keyDir d (ElementLayer.layer a) ->
                keyDir d (ElementLayer.layer m)
                <= keyDir d (ElementLayer.layer a))
  /\ (ElementLayer.type m = image ->
      m = imageRef s
      /\ forall t, In t (textElements s) ->
                   TextElement.layer t <> ElementLayer.layer m).
Proof.
  intros H.
  apply (first_least_spec _ (fun e => keyDir d (ElementLayer.layer e)))
    in H; [|intros; apply cmpDir_key].
  destruct H as (l1 & l2 & E & H1 & H2).
  assert (In m (filter (fun e => beyond d l (ElementLayer.layer e))
                  (allElementLayers s))) as Hm
    by (rewrite E; apply in_elt).
  apply filter_In in Hm. destruct Hm as [Hm Hb].
  apply beyond_key in Hb.
  split; [assumption|]. split; [assumption|]. split; [|split].
  - intros a Ha Hba. apply beyond_key in Hba.
    assert (In a (filter (fun e => beyond d l (ElementLayer.layer e))
                    (allElementLayers s))) as Hin
      by (apply filter_In; now split).
    rewrite E in Hin. apply in_app_or in Hin.
    destruct Hin as [Hin | [ <- | Hin] ];
      [apply H1 in Hin|..|apply H2 in Hin]; lia.
  - apply in_allElementLayers in Hm.
    destruct Hm as [(t & _ & ->) | ->]; [discriminate|reflexivity].
  - intros t Ht Et. rename H into Hty.
    apply in_allElementLayers in Hm.
    destruct Hm as [(u & _ & ->) | ->]; [discriminate|].
    unfold allElementLayers in E. rewrite filter_app in E.
    simpl in E. fold (imageRef s) in E.
    replace (beyond d l (imageLayer s)) with true in E
      by (symmetry; apply beyond_key; exact Hb).
    symmetry in E. apply app_last_unique in E.
    + destruct E as [_ ->].
      assert (keyDir d (ElementLayer.layer (imageRef s))
              < keyDir d (ElementLayer.layer (refOf t))) as Hlt.
      { apply H1. apply filter_In. split.
        - apply in_map_iff. now exists t.
        - simpl. rewrite Et. apply beyond_key. exact Hb. }
      simpl in Hlt, Et. rewrite Et in Hlt. simpl in Hlt. lia.
    + intros Hin. apply filter_In in Hin. destruct Hin as [Hin _].
      apply in_map_iff in Hin. destruct Hin as (u & Eu & _).
      discriminate.
Qed.

End NextBeyond.

(** ** What a move does to the scene *)

(** [s'] differs from [s] in layer values only. *)
Definition sameButLayers (s s' : Designer.t) : Prop :=
  map (TextElement.with_layer 0) (textElements s')
  = map (TextElement.with_layer 0) (textElements s)
  /\ setImageLayer (imageLayer s) (setTextElements (textElements s) s') = s.

(** From [s] to [s'], the elements [a] and [b] have exchanged their layer
    values and nothing else has changed. *)
Definition exchanged (s s' : Designer.t) (a b : Element) : Prop :=
  layerOf s' a = layerOf s b
  /\ layerOf s' b = layerOf s a
  /\ (forall e, e <> a -> e <> b -> layerOf s' e = layerOf s e)
  /\ Permutation (allLayers s') (allLayers s)
  /\ sameButLayers s s'.

Lemma layerOf_in (s : Designer.t) (e : Element) (l : Z) :
  layerOf s e = Some l ->
  exists m, In m (allElementLayers s) /\ ElementLayer.layer m = l.
Proof.
  destruct e as [|j]; simpl.
  - intros [= <-]. exists (imageRef s). split; [|reflexivity].
    apply in_allElementLayers. now right.
  - destruct (JS.find _ _) as [t|] eqn:E; [|discriminate].
    intros [= <-]. apply find_hasId in E. destruct E as [Ht _].
    exists (refOf t). split; [|reflexivity].
    apply in_allElementLayers. left. now exists t.
Qed.

Lemma layerOf_elementOf (s : Designer.t) (m : ElementLayer.t) :
  NoDup (ids s) -> In m (allElementLayers s) ->
  layerOf s (elementOf m) = Some (ElementLayer.layer m).
Proof.
  intros Hnd Hm. apply in_allElementLayers in Hm.
  destruct Hm as [(t & Ht & ->) | ->]; [|reflexivity].
  unfold elementOf. simpl. now rewrite find_hasId_In.
Qed.

Lemma layerOf_text_relayer (s s' : Designer.t) (f : Z -> Z) (j : string) :
  textElements s' = map (relayer f) (textElements s) ->
  layerOf s' (Text j) = option_map f (layerOf s (Text j)).
Proof.
  intros E. simpl. rewrite E, find_hasId_map by reflexivity.
  now destruct (JS.find _ _).
Qed.

Lemma layerOf_text_unique (s : Designer.t) (i j : string) (l : Z) :
  NoDup (textLayers s) ->
  layerOf s (Text i) = Some l -> layerOf s (Text j) = Some l -> i = j.
Proof.
  simpl. intros Hnd Hi Hj.
  destruct (JS.find (hasId i) _) as [t|] eqn:Ei; [|discriminate].
  destruct (JS.find (hasId j) _) as [u|] eqn:Ej; [|discriminate].
  apply find_hasId in Ei, Ej. destruct Ei as [Ht <-], Ej as [Hu <-].
  simpl in Hi, Hj. f_equal.
  apply (NoDup_map_eq TextElement.layer (textElements s));
    [exact Hnd|assumption|assumption|congruence].
Qed.

Lemma layerOf_text_in (s : Designer.t) (j : string) (l : Z) :
  layerOf s (Text j) = Some l -> In l (textLayers s).
Proof.
  simpl. destruct (JS.find _ _) as [t|] eqn:E; [|discriminate].
  intros [= <-]. apply find_hasId in E. now apply in_map.
Qed.

(** [moveLayer] in closed form on a scene whose text elements are
    well-formed. *)
Lemma moveLayer_eq (d : Dir) (i : string) (s : Designer.t)
      (el : TextElement.t) :
  wfTexts s ->
  JS.find (hasId i) (textElements s) = Some el ->
  moveLayer d i s =
  match nextBeyond d (TextElement.layer el) s with
  | None => s
  | Some m =>
      setTextElements
        (map (relayer (transp (TextElement.layer el) (ElementLayer.layer m)))
           (textElements s))
        (match ElementLayer.type m with
         | image => setImageLayer (TextElement.layer el) s
         | text => s
         end)
  end.
Proof.
  intros [Hid Hly] Hf. unfold moveLayer, nextBeyond.
  rewrite Hf, <- hd_sort.
  destruct (JS.sort _ _) as [|m rest]; simpl; [reflexivity|].
  f_equal. apply map_ext_in. intros t Ht.
  apply find_hasId in Hf. destruct Hf as [Hel Ei].
  unfold relayer.
  destruct (String.eqb_spec (TextElement.id t) i) as [E|E].
  - assert (t = el) as ->
        by (apply (NoDup_map_eq TextElement.id (textElements s));
            auto; congruence).
    now rewrite transp_l.
  - assert (TextElement.layer t <> TextElement.layer el) as Hne.
    { intros El. apply E. rewrite <- Ei. f_equal.
      now apply (NoDup_map_eq TextElement.layer (textElements s)). }
    simpl. rewrite andb_true_r.
    destruct (Z.eqb_spec (TextElement.layer t) (ElementLayer.layer m))
      as [Em|Em].
    + now rewrite Em, transp_r.
    + now rewrite transp_other, with_layer_same.
Qed.

Lemma exchanged_text (d : Dir) (i : string) (s : Designer.t)
      (el : TextElement.t) (m : ElementLayer.t) :
  wfTexts s ->
  JS.find (hasId i) (textElements s) = Some el ->
  nextBeyond d (TextElement.layer el) s = Some m ->
  exchanged s (moveLayer d i s) (Text i) (elementOf m).
Proof.
  intros Hwf Hf Hm. pose proof Hwf as [Hid Hly].
  rewrite (moveLayer_eq d i s el Hwf Hf), Hm.
  apply nextBeyond_Some in Hm. destruct Hm as (Hin & Hlt & _ & Himg).
  set (L := TextElement.layer el) in *.
  set (ln := ElementLayer.layer m) in *.
  assert (L <> ln) as Hne by (intros E; rewrite E in Hlt; lia).
  assert (layerOf s (Text i) = Some L) as HL by (simpl; now rewrite Hf).
  pose proof (layerOf_elementOf s m Hid Hin) as Hn. fold ln in Hn.
  set (s0 := match ElementLayer.type m with
             | image => setImageLayer L s
             | text => s
             end).
  set (s' := setTextElements (map (relayer (transp L ln)) (textElements s)) s0).
  assert (forall j, layerOf s' (Text j)
                    = option_map (transp L ln) (layerOf s (Text j))) as Ht.
  { intros j. apply layerOf_text_relayer. subst s' s0.
    now destruct (ElementLayer.type m). }
  split; [|split; [|split; [|split]]].
  - rewrite Ht, HL, Hn. simpl. now rewrite transp_l.
  - rewrite HL. unfold elementOf in *.
    destruct (ElementLayer.type m) eqn:Ety.
    + reflexivity.
    + rewrite Ht, Hn. simpl. now rewrite transp_r.
  - intros e He Hen. destruct e as [|j].
    + unfold elementOf in Hen. subst s' s0.
      destruct (ElementLayer.type m); [congruence|reflexivity].
    + rewrite Ht. destruct (layerOf s (Text j)) as [l|] eqn:Ej;
        [|reflexivity].
      simpl. f_equal. apply transp_other.
      * intros ->. apply He. f_equal.
        now apply (layerOf_text_unique s j i L).
      * intros ->. unfold elementOf in Hen, Hn.
        destruct (ElementLayer.type m) eqn:Ety.
        -- destruct (Himg eq_refl) as [_ Hno].
           simpl in Ej.
           destruct (JS.find (hasId j) _) as [t|] eqn:Fj; [|discriminate].
           apply find_hasId in Fj. destruct Fj as [Hin' _].
           apply (Hno t Hin'). simpl in Ej. congruence.
        -- apply Hen. f_equal.
           now apply (layerOf_text_unique s j _ ln).
  - unfold allLayers. subst s'.
    replace (textElements (setTextElements _ s0))
      with (map (relayer (transp L ln)) (textElements s))
      by (subst s0; now destruct (ElementLayer.type m)).
    replace (imageLayer (setTextElements _ s0)) with (imageLayer s0)
      by reflexivity.
    rewrite map_map. simpl.
    rewrite <- (map_map TextElement.layer (transp L ln)).
    fold (textLayers s).
    assert (In L (textLayers s)) as HLin
      by (eapply layerOf_text_in; exact HL).
    unfold elementOf in Hn. subst s0.
    destruct (ElementLayer.type m) eqn:Ety.
    + destruct (Himg eq_refl) as [-> Hno]. simpl in ln.
      assert (~ In ln (textLayers s)) as Hnin.
      { intros Hin'. apply in_map_iff in Hin'.
        destruct Hin' as (t & Et & Ht'). now apply (Hno t Ht'). }
      change (imageLayer (setImageLayer L s)) with L.
      replace (map (transp L ln) (textLayers s) ++ [L])
        with (map (transp L ln) (textLayers s ++ [ln]))
        by (rewrite map_app; simpl; now rewrite transp_r).
      change (imageLayer s) with ln.
      apply transp_perm.
      * apply NoDup_app; [assumption|repeat constructor; intros []|].
        intros a Ha [<-|[]]. contradiction.
      * apply in_or_app. now left.
      * apply in_or_app. right. now left.
    + apply Permutation_app_tail, transp_perm; try assumption.
      eapply layerOf_text_in. exact Hn.
  - split.
    + subst s'.
      replace (textElements (setTextElements _ s0))
        with (map (relayer (transp L ln)) (textElements s))
        by (subst s0; now destruct (ElementLayer.type m)).
      rewrite map_map. now apply map_ext.
    + subst s' s0. destruct s, (ElementLayer.type m); reflexivity.
Qed.

(** The head of [higherLayers] or [lowerLayers] in [moveImageLayer]. *)
Definition nextText (d : Dir) (s : Designer.t) : option (string * Z) :=
  first_least (fun a b => cmpDir d (snd a) (snd b))
    (filter (fun e => beyond d (imageLayer s) (snd e))
       (map (fun t => (TextElement.id t, TextElement.layer t))
          (textElements s))).

Lemma nextText_None (d : Dir) (s : Designer.t) :
  nextText d s = None ->
  forall t, In t (textElements s) ->
            keyDir d (TextElement.layer t) <= keyDir d (imageLayer s).
Proof.
  intros H t Ht. apply first_least_None in H.
  destruct (beyond d (imageLayer s) (TextElement.layer t)) eqn:B.
  - assert (In (TextElement.id t, TextElement.layer t)
              (filter (fun e => beyond d (imageLayer s) (snd e))
                 (map (fun t => (TextElement.id t, TextElement.layer t))
                    (textElements s)))) as Hin.
    { apply filter_In. split; [|exact B]. apply in_map_iff. now exists t. }
    rewrite H in Hin. destruct Hin.
  - destruct (Z.le_gt_cases (keyDir d (TextElement.layer t))
                (keyDir d (imageLayer s))) as [|Hgt]; [assumption|].
    apply beyond_key in Hgt. congruence.
Qed.

Lemma nextText_Some (d : Dir) (s : Designer.t) (m : string * Z) :
  nextText d s = Some m ->
  exists u, In u (textElements s)
    /\ m = (TextElement.id u, TextElement.layer u)
    /\ keyDir d (imageLayer s) < keyDir d (TextElement.layer u)
    /\ (forall t, In t (textElements s) ->
                  keyDir d (imageLayer s) < keyDir d (TextElement.layer t) ->
                  keyDir d (TextElement.layer u)
                  <= keyDir d (TextElement.layer t)).
Proof.
  intros H.
  apply (first_least_spec _ (fun e => keyDir d (snd e))) in H;
    [|intros; apply cmpDir_key].
  destruct H as (l1 & l2 & E & H1 & H2).
  assert (In m (filter (fun e => beyond d (imageLayer s) (snd e))
                  (map (fun t => (TextElement.id t, TextElement.layer t))
                     (textElements s)))) as Hm
    by (rewrite E; apply in_elt).
  apply filter_In in Hm. destruct Hm as [Hm Hb].
  apply in_map_iff in Hm. destruct Hm as (u & <- & Hu).
  apply beyond_key in Hb. simpl in Hb.
  exists u. repeat split; try assumption.
  intros t Ht Hbt. apply beyond_key in Hbt.
  assert (In (TextElement.id t, TextElement.layer t)
            (filter (fun e => beyond d (imageLayer s) (snd e))
               (map (fun t => (TextElement.id t, TextElement.layer t))
                  (textElements s)))) as Hin.
  { apply filter_In. split; [|exact Hbt]. apply in_map_iff. now exists t. }
  rewrite E in Hin. apply in_app_or in Hin.
  destruct Hin as [Hin | [Hin | Hin] ].
  - apply H1 in Hin. simpl in Hin. lia.
  - inversion Hin. lia.
  - apply H2 in Hin. simpl in Hin. lia.
Qed.

Lemma moveImageLayer_eq (d : Dir) (s : Designer.t) :
  moveImageLayer d s =
  match nextText d s with
  | None => s
  | Some m =>
      setTextElements
        (map (fun t =>
                if String.eqb (TextElement.id t) (fst m)
                then TextElement.with_layer (imageLayer s) t else t)
           (textElements s))
        (setImageLayer (snd m) s)
  end.
Proof.
  unfold moveImageLayer, nextText. rewrite <- hd_sort.
  now destruct (JS.sort _ _).
Qed.

Lemma relabel_perm (l : list TextElement.t) (u : TextElement.t) (v : Z) :
  NoDup (map TextElement.id l) -> In u l ->
  Permutation
    (map TextElement.layer
       (map (fun t => if String.eqb (TextElement.id t) (TextElement.id u)
                      then TextElement.with_layer v t else t) l)
     ++ [TextElement.layer u])
    (map TextElement.layer l ++ [v]).
Proof.
  induction l as [|t l IH]; simpl; intros Hnd Hu; [contradiction|].
  inversion Hnd as [|? ? Ht Hl]; subst.
  destruct Hu as [->|Hu].
  - rewrite String.eqb_refl. simpl.
    replace (map _ l) with l.
    + transitivity (v :: TextElement.layer u :: map TextElement.layer l).
      * apply perm_skip. symmetry. apply Permutation_cons_append.
      * rewrite perm_swap. apply perm_skip, Permutation_cons_append.
    + rewrite <- (map_id l) at 1. apply map_ext_in. intros t Hin.
      destruct (String.eqb_spec (TextElement.id t) (TextElement.id u))
        as [E|E]; [|reflexivity].
      exfalso. apply Ht. rewrite <- E. now apply in_map.
  - destruct (String.eqb_spec (TextElement.id t) (TextElement.id u))
      as [E|E].
    + exfalso. apply Ht. rewrite E. now apply in_map.
    + simpl. apply perm_skip. now apply IH.
Qed.

Lemma exchanged_image (d : Dir) (s : Designer.t) (m : string * Z) :
  NoDup (ids s) ->
  nextText d s = Some m ->
  exchanged s (moveImageLayer d s) Image (Text (fst m)).
Proof.
  intros Hid Hm. rewrite moveImageLayer_eq, Hm.
  apply nextText_Some in Hm. destruct Hm as (u & Hu & -> & _). simpl fst.
  simpl snd.
  set (f := fun t => if String.eqb (TextElement.id t) (TextElement.id u)
                     then TextElement.with_layer (imageLayer s) t else t).
  assert (forall t, TextElement.id (f t) = TextElement.id t) as Hf.
  { intros t. unfold f. now destruct (String.eqb _ _). }
  split; [|split; [|split; [|split]]].
  - simpl. now rewrite find_hasId_In.
  - simpl. rewrite find_hasId_map, find_hasId_In by assumption.
    simpl. unfold f. now rewrite String.eqb_refl.
  - intros e He Hen. destruct e as [|j]; [congruence|].
    simpl. rewrite find_hasId_map by assumption.
    destruct (JS.find (hasId j) _) as [t|] eqn:Fj; [|reflexivity].
    apply find_hasId in Fj. destruct Fj as [_ <-]. simpl. unfold f.
    destruct (String.eqb_spec (TextElement.id t) (TextElement.id u))
      as [E|E]; [|reflexivity].
    exfalso. apply Hen. now f_equal.
  - unfold allLayers. simpl. now apply relabel_perm.
  - split.
    + simpl. rewrite map_map. apply map_ext. intros t. unfold f.
      now destruct (String.eqb _ _).
    + destruct s; reflexivity.
Qed.

(** A move in direction [d] of an element of a scene with well-formed
    text elements: a no-op at the extreme, an exchange with the nearest
    element beyond otherwise. *)
Lemma move_spec (d : Dir) (s : Designer.t) (e : Element) (L : Z) :
  wfTexts s ->
  layerOf s e = Some L ->
  ((forall e' l, layerOf s e' = Some l -> keyDir d l <= keyDir d L)
   /\ move d e s = s)
  \/ (exists n ln,
         layerOf s n = Some ln
         /\ keyDir d L < keyDir d ln
         /\ (forall e' l, layerOf s e' = Some l ->
                          keyDir d L < keyDir d l ->
                          keyDir d ln <= keyDir d l)
         /\ exchanged s (move d e s) e n).
Proof.
  intros Hwf HL. pose proof Hwf as [Hid Hly].
  destruct e as [|i]; simpl move.
  - simpl in HL. injection HL as <-.
    destruct (nextText d s) as [m|] eqn:E.
    + right. pose proof (exchanged_image d s m Hid E) as Hex.
      apply nextText_Some in E. destruct E as (u & Hu & -> & Hlt & Hmin).
      exists (Text (TextElement.id u)), (TextElement.layer u).
      split; [simpl; now rewrite find_hasId_In|].
      split; [assumption|]. split; [|exact Hex].
      intros [|j] l; simpl.
      * intros [= <-]. lia.
      * destruct (JS.find (hasId j) _) as [t|] eqn:Fj; [|discriminate].
        intros [= <-]. apply find_hasId in Fj. now apply Hmin.
    + left. split; [|now rewrite moveImageLayer_eq, E].
      intros [|j] l; simpl.
      * intros [= <-]. lia.
      * destruct (JS.find (hasId j) _) as [t|] eqn:Fj; [|discriminate].
        intros [= <-]. apply find_hasId in Fj.
        now apply (nextText_None d s E).
  - assert (exists el, JS.find (hasId i) (textElements s) = Some el
                       /\ TextElement.layer el = L) as (el & Hf & <-).
    { simpl in HL. destruct (JS.find _ _) as [el|]; [|discriminate].
      exists el. split; [reflexivity|]. now injection HL. }
    destruct (nextBeyond d (TextElement.layer el) s) as [m|] eqn:E.
    + right. pose proof (exchanged_text d i s el m Hwf Hf E) as Hex.
      apply nextBeyond_Some in E. destruct E as (Hin & Hlt & Hmin & _).
      exists (elementOf m), (ElementLayer.layer m).
      split; [now apply layerOf_elementOf|].
      split; [assumption|]. split; [|exact Hex].
      intros e' l He' Hl. apply layerOf_in in He'.
      destruct He' as (a & Ha & <-). now apply Hmin.
    + left. split; [|now rewrite (moveLayer_eq d i s el Hwf Hf), E].
      intros e' l He'. apply layerOf_in in He'.
      destruct He' as (a & Ha & <-). now apply (nextBeyond_None d _ s E).
Qed.

(** [moveUp] acts on [e] as the specification says: it finds an element
    with the smallest layer strictly greater than [e]'s; without one the
    scene is returned as it is, and otherwise [e] and that element
    exchange their layers and nothing else changes. *)
Definition swapsUp (s : Designer.t) (e : Element) : Prop :=
  forall L, layerOf s e = Some L ->
    ((forall e' l, layerOf s e' = Some l -> l <= L) /\ moveUp e s = s)
    \/ (exists n ln,
           layerOf s n = Some ln
           /\ L < ln
           /\ (forall e' l, layerOf s e' = Some l -> L < l -> ln <= l)
           /\ exchanged s (moveUp e s) e n).

(** Symmetrically for [moveDown], with the greatest layer strictly less
    than [e]'s. *)
Definition swapsDown (s : Designer.t) (e : Element) : Prop :=
  forall L, layerOf s e = Some L ->
    ((forall e' l, layerOf s e' = Some l -> L <= l) /\ moveDown e s = s)
    \/ (exists n ln,
           layerOf s n = Some ln
           /\ ln < L
           /\ (forall e' l, layerOf s e' = Some l -> l < L -> l <= ln)
           /\ exchanged s (moveDown e s) e n).

(** Two text boxes on the initial scene. *)
Definition twoTexts : Designer.t := run [AddTextBox 1; AddTextBox 2] initial.



Lemma ids_sameButLayers (s s' : Designer.t) :
  sameButLayers s s' -> ids s' = ids s.
Proof.
  intros [H _]. unfold ids.
  transitivity
    (map TextElement.id
       (map (TextElement.with_layer 0) (textElements s'))).
  - now rewrite map_map.
  - now rewrite H, map_map.
Qed.

Lemma sameButLayers_trans (s s1 s2 : Designer.t) :
  sameButLayers s s1 -> sameButLayers s1 s2 -> sameButLayers s s2.
Proof.
  intros [H1 E1] [H2 E2]. split; [congruence|].
  rewrite <- E1 at 3. rewrite <- E2. now destruct s2.
Qed.

Lemma texts_eq (l l' : list TextElement.t) :
  map (TextElement.with_layer 0) l' = map (TextElement.with_layer 0) l ->
  map TextElement.layer l' = map TextElement.layer l ->
  l' = l.
Proof.
  revert l'. induction l as [|t l IH]; intros [|t' l']; simpl;
    try discriminate; [reflexivity|].
  intros [= E El] [= Ly Lyl]. f_equal; [|now apply IH].
  rewrite <- (with_layer_same t), <- (with_layer_same t'), Ly.
  destruct t, t'. unfold TextElement.with_layer in *. simpl in *.
  congruence.
Qed.

Lemma find_none_all {A : Type} (p : A -> bool) (l : list A) :
  (forall a, In a l -> p a = false) -> JS.find p l = None.
Proof.
  unfold JS.find. induction l as [|a l IH]; simpl; intros H; [reflexivity|].
  rewrite (H a) by now left. apply IH. intros b Hb. apply H. now right.
Qed.

Lemma layers_by_id (l l' : list TextElement.t) :
  NoDup (map TextElement.id l) ->
  map TextElement.id l' = map TextElement.id l ->
  (forall j, option_map TextElement.layer (JS.find (hasId j) l')
             = option_map TextElement.layer (JS.find (hasId j) l)) ->
  map TextElement.layer l' = map TextElement.layer l.
Proof.
  revert l'. induction l as [|t l IH]; intros [|t' l']; simpl;
    try discriminate; [reflexivity|].
  intros Hnd [= Ei Eil] H. inversion Hnd as [|? ? Ht Hl]; subst.
  f_equal.
  - specialize (H (TextElement.id t)). unfold hasId in H.
    rewrite Ei, String.eqb_refl in H. simpl in H. congruence.
  - apply IH; [assumption|assumption|]. intros j.
    pose proof (H j) as Hj.
    change (JS.find (hasId j) (t' :: l'))
      with (if hasId j t' then Some t' else JS.find (hasId j) l') in Hj.
    change (JS.find (hasId j) (t :: l))
      with (if hasId j t then Some t else JS.find (hasId j) l) in Hj.
    unfold hasId at 1 3 in Hj. rewrite Ei in Hj.
    destruct (String.eqb_spec (TextElement.id t) j) as [E|E];
      [|exact Hj].
    assert (forall u k, In u k ->
                        map TextElement.id k = map TextElement.id l ->
                        hasId j u = false) as Hnone.
    { intros u k Hu Ek. unfold hasId. apply String.eqb_neq.
      intros Eu. apply Ht. rewrite E, <- Eu, <- Ek. now apply in_map. }
    replace (JS.find (hasId j) l') with (@None TextElement.t).
    + replace (JS.find (hasId j) l) with (@None TextElement.t);
        [reflexivity|].
      symmetry. apply find_none_all. intros u Hu.
      now apply (Hnone u l).
    + symmetry. apply find_none_all. intros u Hu.
      now apply (Hnone u l').
Qed.

Lemma Element_eq_dec (a b : Element) : {a = b} + {a <> b}.
Proof. decide equality. apply string_dec. Defined.

(** A scene is determined by its layers once everything else is fixed. *)
Lemma scene_eq (s s' : Designer.t) :
  NoDup (ids s) -> sameButLayers s s' ->
  (forall e, layerOf s' e = layerOf s e) -> s' = s.
Proof.
  intros Hnd Hsame H. pose proof (ids_sameButLayers s s' Hsame) as Hids.
  destruct Hsame as [Hm He].
  assert (imageLayer s' = imageLayer s) as Hi
    by (specialize (H Image); simpl in H; congruence).
  assert (textElements s' = textElements s) as Ht.
  { apply texts_eq; [assumption|].
    apply layers_by_id; [assumption|assumption|].
    intros j. exact (H (Text j)). }
  rewrite <- He, <- Hi, <- Ht. now destruct s'.
Qed.

Lemma layerOf_inj (s : Designer.t) (a b : Element) (l : Z) :
  wfScene s -> layerOf s a = Some l -> layerOf s b = Some l -> a = b.
Proof.
  intros Hwf Ha Hb. pose proof (wfScene_wfTexts s Hwf) as [_ Hly].
  destruct Hwf as [_ Hall].
  assert (forall j, layerOf s (Text j) = Some (imageLayer s) -> False)
    as Hno.
  { intros j Hj. apply layerOf_text_in in Hj. unfold allLayers in Hall.
    apply NoDup_remove_2 in Hall. rewrite app_nil_r in Hall.
    now apply Hall. }
  destruct a as [|i], b as [|j]; try reflexivity.
  - simpl in Ha. injection Ha as <-. now apply Hno in Hb.
  - simpl in Hb. injection Hb as <-. now apply Hno in Ha.
  - f_equal. now apply (layerOf_text_unique s i j l).
Qed.

Lemma wfScene_exchanged (s s' : Designer.t) (a b : Element) :
  wfScene s -> exchanged s s' a b -> wfScene s'.
Proof.
  intros [Hid Hall] (_ & _ & _ & Hp & Hsame). split.
  - now rewrite (ids_sameButLayers s s' Hsame).
  - eapply Permutation_NoDup; [symmetry; exact Hp|assumption].
Qed.

(** * Properties of the specification *)

(** ** Layer ordering engine *)

Lemma fold_max_ge (ys : list Z) (y : Z) :
  y <= fold_left Z.max ys y
  /\ forall x, In x ys -> x <= fold_left Z.max ys y.
Proof.
  revert y. induction ys as [|z ys IH]; simpl; intros y.
  - split; [lia|intros ? []].
  - destruct (IH (Z.max y z)) as [H1 H2]. split; [lia|].
    intros x [->|Hx]; [lia|now apply H2].
Qed.

Lemma max_or_ge (default : Z) (xs : list Z) (x : Z) :
  In x xs -> x <= JS.max_or default xs.
Proof.
  destruct xs as [|y ys]; simpl; [contradiction|].
  destruct (fold_max_ge ys y) as [H1 H2].
  intros [->|Hx]; [assumption|now apply H2].
Qed.

(** The integers at which [x + 1] is exact. *)
Definition safe (l : Z) : Prop := - (2 ^ 53) <= l /\ l < 2 ^ 53.

Lemma plus1_exact (x : Z) : safe x -> JS.plus1 x = x + 1.
Proof.
  unfold safe, JS.plus1. intros Hx.
  destruct (Z.eq_dec (x + 1) (2 ^ 53)) as [E|E].
  { rewrite E. vm_compute. reflexivity. }
  unfold JS.nearestDouble.
  assert ((Z.log2 (Z.abs (x + 1)) - 52 <=? 0) = true) as ->;
    [|reflexivity].
  apply Z.leb_le.
  destruct (Z.eq_dec (Z.abs (x + 1)) 0) as [Z0|NZ];
    [rewrite Z0; simpl; lia|].
  assert (Z.log2 (Z.abs (x + 1)) < 53); [|lia].
  apply Z.log2_lt_pow2; [lia|].
  change (2 ^ 53) with 9007199254740992 in *. lia.
Qed.

Lemma fold_max_within (lo hi : Z) (ys : list Z) (y : Z) :
  lo <= y <= hi -> Forall (fun l => lo <= l <= hi) ys ->
  lo <= fold_left Z.max ys y <= hi.
Proof.
  revert y. induction ys as [|z ys IH]; simpl; intros y Hy Hys;
    [exact Hy|].
  apply Forall_cons_iff in Hys. destruct Hys as [Hz Hys].
  apply IH; [lia|exact Hys].
Qed.

Lemma max_or_within (lo hi default : Z) (xs : list Z) :
  lo <= default <= hi -> Forall (fun l => lo <= l <= hi) xs ->
  lo <= JS.max_or default xs <= hi.
Proof.
  intros Hd Hxs. destruct xs as [|y ys]; simpl; [exact Hd|].
  apply Forall_cons_iff in Hxs. destruct Hxs as [Hy Hys].
  now apply fold_max_within.
Qed.

(** Below [2 ^ 53] the layer of a new text element is one more than the
    greatest layer of the text elements. *)
Lemma new_layer_exact (xs : list Z) :
  Forall safe xs -> JS.plus1 (JS.max_or (-1) xs) = JS.max_or (-1) xs + 1.
Proof.
  intros Hxs. apply plus1_exact.
  assert (- (2 ^ 53) <= JS.max_or (-1) xs <= 2 ^ 53 - 1) as H.
  { apply max_or_within.
    - change (2 ^ 53) with 9007199254740992. lia.
    - eapply Forall_impl; [|exact Hxs]. unfold safe. intros l Hl. lia. }
  unfold safe. lia.
Qed.



(** C1 (code at fault).  The layers of the live elements do not stay
    distinct: a text box added to the initial scene, whose image has a
    source, takes layer 0, the layer of the image; and on a scene whose
    only text element is at layer 0 below the image at layer 1, a new
    text box takes the image's layer 1. *)
Theorem creation_duplicates_image_layer :
  let s := run [AddImage "board.png"; AddTextBox 1] initial in
  let before :=
    run [AddImage "board.png"; AddTextBox 1; AddTextBox 2;
         DeleteTextBox "1"; MoveDown (Text "2")] initial in
  liveLayers s = [0; 0]
  /\ ~ NoDup (liveLayers s)
  /\ liveLayers before = [0; 1]
  /\ liveLayers (act (AddTextBox 3) before) = [0; 1; 1]
  /\ ~ NoDup (liveLayers (act (AddTextBox 3) before)).
Proof.
  cbv zeta.
  assert (liveLayers (run [AddImage "board.png"; AddTextBox 1] initial)
          = [0; 0]) as E1 by (vm_compute; reflexivity).
  assert (liveLayers
            (act (AddTextBox 3)
               (run [AddImage "board.png"; AddTextBox 1; AddTextBox 2;
                     DeleteTextBox "1"; MoveDown (Text "2")] initial))
          = [0; 1; 1]) as E2 by (vm_compute; reflexivity).
  rewrite E1, E2.
  split; [reflexivity|]. split.
  - intros H. inversion H as [|? ? Hin _]; subst. apply Hin. now left.
  - split; [vm_compute; reflexivity|]. split; [reflexivity|].
    intros H. inversion H as [|? ? _ H']; subst.
    inversion H' as [|? ? Hin _]; subst. apply Hin. now left.
Qed.

(** C2 (code at fault).  The layer given to a new text element is one
    more than the greatest layer of the text elements only: with an
    image at layer 0 and no text element, [addTextBox] and
    [addTextElement] both assign layer 0, which is not greater than the
    image's layer. *)
Theorem new_text_layer_ignores_image :
  let s := addImage "board.png" initial in
  let s' := setTextInput "Hello" s in
  imageLayer s = 0
  /\ JS.truthy (imageUrl s) = true
  /\ map TextElement.layer (textElements (addTextBox 1 s)) = [0]
  /\ imageLayer (addTextBox 1 s) = 0
  /\ map TextElement.layer (textElements (fst (addTextElement 1 s'))) = [0]
  /\ imageLayer (fst (addTextElement 1 s')) = 0.
Proof. repeat split; vm_compute; reflexivity. Qed.

Lemma swapsUp_wf (s : Designer.t) (e : Element) : wfTexts s -> swapsUp s e.
Proof.
  intros Hwf L HL. rewrite moveUp_move.
  destruct (move_spec Up s e L Hwf HL)
    as [[Hmax Heq]|(n & ln & Hn & Hlt & Hmin & Hex)];
    cbn [keyDir] in *.
  - left. split; assumption.
  - right. exists n, ln.
    split; [assumption|]. split; [assumption|]. split; assumption.
Qed.

Lemma swapsDown_wf (s : Designer.t) (e : Element) :
  wfTexts s -> swapsDown s e.
Proof.
  intros Hwf L HL. rewrite moveDown_move.
  destruct (move_spec Down s e L Hwf HL)
    as [[Hmax Heq]|(n & ln & Hn & Hlt & Hmin & Hex)];
    cbn [keyDir] in *.
  - left. split; [|assumption].
    intros e' l He'. specialize (Hmax e' l He'). lia.
  - right. exists n, ln. split; [assumption|]. split; [lia|].
    split; [|assumption].
    intros e' l He' Hl. specialize (Hmin e' l He'). lia.
Qed.




(** C4 (as amended).  On a scene whose text identifiers are distinct and
    whose layers, the image's included, are pairwise distinct, for an
    element that does not hold the greatest layer: [moveUp] followed by
    [moveDown] of the same element gives back the scene, every layer
    included. *)
Theorem moveUp_then_moveDown (s : Designer.t) (e : Element) (L : Z) :
  wfScene s ->
  layerOf s e = Some L ->
  (exists e' l, layerOf s e' = Some l /\ L < l) ->
  moveDown e (moveUp e s) = s.
Proof.
  intros Hwf HL (e0 & l0 & He0 & Hl0).
  pose proof (wfScene_wfTexts s Hwf) as Hwt.
  destruct (swapsUp_wf s e Hwt L HL) as [[Hmax _]|(n & ln & Hn & Hlt & Hmin & Hex)];
    [specialize (Hmax e0 l0 He0); lia|].
  set (s1 := moveUp e s) in *.
  pose proof (wfScene_exchanged s s1 e n Hwf Hex) as Hwf1.
  pose proof (wfScene_wfTexts s1 Hwf1) as Hwt1.
  destruct Hex as (Ha & Hb & Ho & Hp & Hsame).
  rewrite Hn in Ha. rewrite HL in Hb.
  assert (e <> n) as Hne by (intros ->; rewrite HL in Hn; injection Hn; lia).
  destruct (swapsDown_wf s1 e Hwt1 ln Ha)
    as [[Hmin1 _]|(n1 & ln1 & Hn1 & Hlt1 & Hmax1 & Hex1)];
    [specialize (Hmin1 n L Hb); lia|].
  assert (ln1 = L) as ->.
  { assert (L <= ln1) by (apply (Hmax1 n L Hb); lia).
    assert (ln1 <= L); [|lia].
    destruct (Z.le_gt_cases ln1 L) as [|Hgt]; [assumption|].
    assert (n1 <> e) as Hn1e by (intros ->; rewrite Ha in Hn1;
                                  injection Hn1; lia).
    assert (n1 <> n) as Hn1n by (intros ->; rewrite Hb in Hn1;
                                  injection Hn1; lia).
    rewrite (Ho n1 Hn1e Hn1n) in Hn1.
    specialize (Hmin n1 ln1 Hn1). lia. }
  assert (n1 = n) as -> by (apply (layerOf_inj s1 n1 n L); assumption).
  destruct Hex1 as (Ha1 & Hb1 & Ho1 & _ & Hsame1).
  apply scene_eq.
  - apply Hwf.
  - eapply sameButLayers_trans; eassumption.
  - intros x.
    destruct (Element_eq_dec x e) as [->|Hxe]; [congruence|].
    destruct (Element_eq_dec x n) as [->|Hxn]; [congruence|].
    rewrite Ho1, Ho by assumption. reflexivity.
Qed.

(** One text element on top of the image: layer 1 for the text, 0 for
    the image. *)
Definition topText : Designer.t :=
  run [AddImage "board.png"; AddTextBox 1; AddTextBox 2; DeleteTextBox "1"]
    initial.

Lemma moveUp_then_moveDown_witness :
  wfScene topText
  /\ layerOf topText Image = Some 0
  /\ moveDown Image (moveUp Image topText) = topText.
Proof.
  assert (wfScene topText) as Hwf.
  { split; vm_compute; repeat constructor; simpl; intuition discriminate. }
  split; [exact Hwf|]. split; [reflexivity|].
  apply (moveUp_then_moveDown topText Image 0 Hwf); [reflexivity|].
  exists (Text "2"), 1. split; [vm_compute; reflexivity|lia].
Defined.

(** C4 as stated fails for the element that holds the greatest layer:
    on [topText], whose layers are distinct, [moveUp] of the text leaves
    the scene as it is and [moveDown] then puts the text below the
    image. *)
Lemma moveUp_then_moveDown_at_top :
  wfScene topText
  /\ layerOf topText (Text "2") = Some 1
  /\ allLayers topText = [1; 0]
  /\ allLayers (moveDown (Text "2") (moveUp (Text "2") topText)) = [0; 1]
  /\ moveDown (Text "2") (moveUp (Text "2") topText) <> topText.
Proof.
  assert (allLayers (moveDown (Text "2") (moveUp (Text "2") topText))
          = [0; 1]) as E by (vm_compute; reflexivity).
  split; [|split; [|split; [|split]]].
  - split; vm_compute; repeat constructor; simpl; intuition discriminate.
  - vm_compute; reflexivity.
  - vm_compute; reflexivity.
  - exact E.
  - intros H. rewrite H in E. vm_compute in E. discriminate.
Qed.

(** C10.  [moveLayerUp] and [moveLayerDown] called with an identifier
    that no text element of the scene has return the scene as it is:
    no layer, position or other attribute changes. *)
Theorem move_unknown_id (s : Designer.t) (id : string) :
  ~ In id (ids s) -> moveLayerUp id s = s /\ moveLayerDown id s = s.
Proof.
  intros Hid.
  assert (JS.find (fun t => String.eqb (TextElement.id t) id)
            (textElements s) = None) as E.
  { apply find_none_all. intros t Ht. apply String.eqb_neq.
    intros Et. apply Hid. rewrite <- Et. now apply in_map. }
  unfold moveLayerUp, moveLayerDown. now rewrite E.
Qed.

Lemma move_unknown_id_witness :
  ~ In "image" (ids twoTexts)
  /\ moveLayerUp "image" twoTexts = twoTexts
  /\ moveLayerDown "image" twoTexts = twoTexts.
Proof.
  assert (~ In "image" (ids twoTexts)) as H.
  { vm_compute. intuition discriminate. }
  split; [exact H|]. exact (move_unknown_id twoTexts "image" H).
Defined.

(** ** Anchor/transform calculator *)

(** A flipped image on the initial board: centre (8, 20), scale 100, no
    rotation. *)
Definition flippedBoard : Designer.t :=
  Designer.mk "#ffffff" true "board.png" 100%R 0%R true (8%R, 20%R) 0 []
    None "" 6%R "#0f172a" "Impact" none "" false ["#ffffff"] false.

(** C5 (code at fault).  Real arithmetic stands for the doubles of the
    code.  For an image with centre [(cx, cy)], whatever scale and
    rotation are set while the centre is kept: the draw-space top-left
    corner is [(cx - (16 * k) / 2, cy - (40 * k) / 2)], [k] being the
    scale over 100, and the rotation turns about the centre of the
    scaled box.  For an image that is not flipped, [imageTransform] maps
    the centre of the box to [(cx, cy)].  For a flipped image it does
    not: [scale(1 -1)], which applies first, mirrors the box about its
    top edge, and the centre of the drawn box lands one box height away
    from [(cx, cy)], at a place that moves with the scale.  The flipped
    image centred at (8, 20) without rotation is drawn with its centre
    at (8, -20) at scale 100 and at (8, -60) at scale 200. *)
Theorem flip_breaks_center_anchor (s : Designer.t) (scale' rotation' : R) :
  let cx := fst (imagePosition s) in
  let cy := snd (imagePosition s) in
  let k := (scale' / 100)%R in
  let s' := setImageRotation rotation' (setImageScale scale' s) in
  imageX s' = (cx - (16 * k) / 2)%R
  /\ imageY s' = (cy - (40 * k) / 2)%R
  /\ imageTransform s'
     = [translate (cx - (16 * k) / 2) (cy - (40 * k) / 2);
        rotate rotation' ((16 * k) / 2) ((40 * k) / 2);
        scale 1 (if imageFlipped s then -1 else 1)]
  /\ (imageFlipped s = false ->
      applyTransforms (imageTransform s') (boxCenter s') = (cx, cy))
  /\ (imageFlipped s = true ->
      applyTransforms (imageTransform s') (boxCenter s')
      = (cx + 40 * k * sin (radians rotation'),
         cy - 40 * k * cos (radians rotation'))%R)
  /\ imagePosition flippedBoard = (8, 20)%R
  /\ applyTransforms (imageTransform flippedBoard) (boxCenter flippedBoard)
     = (8, -20)%R
  /\ imagePosition (setImageScale 200 flippedBoard) = (8, 20)%R
  /\ applyTransforms (imageTransform (setImageScale 200 flippedBoard))
       (boxCenter (setImageScale 200 flippedBoard))
     = (8, -60)%R.
Proof.
  cbv zeta.
  assert (radians 0 = 0%R) as Hzero by (unfold radians; field).
  split; [reflexivity|]. split; [reflexivity|]. split; [reflexivity|].
  split; [|split; [|split; [|split; [|split]]]].
  - intros Hflip.
    unfold imageTransform, boxCenter, applyTransforms.
    unfold imageX, imageY, imageCenterX, imageCenterY.
    simpl. rewrite Hflip.
    destruct (imagePosition s) as [cx cy]. simpl. f_equal; ring.
  - intros Hflip.
    unfold imageTransform, boxCenter, applyTransforms.
    unfold imageX, imageY, imageCenterX, imageCenterY, imageHeight.
    simpl. rewrite Hflip.
    destruct (imagePosition s) as [cx cy]. simpl. f_equal; field.
  - reflexivity.
  - unfold imageTransform, boxCenter, applyTransforms.
    unfold imageX, imageY, imageCenterX, imageCenterY, imageHeight,
      imageWidth.
    simpl. rewrite Hzero, cos_0, sin_0. f_equal; field.
  - reflexivity.
  - unfold imageTransform, boxCenter, applyTransforms.
    unfold imageX, imageY, imageCenterX, imageCenterY, imageHeight,
      imageWidth.
    simpl. rewrite Hzero, cos_0, sin_0. f_equal; field.
Qed.

(** X1.  With the flip set, [scale(1 -1)] mirrors the box about its top edge
    before the rotation: the centre of the drawn box is one box height
    away from [(cx, cy)], in the direction the rotation gives. *)
Lemma flipped_box_center (s : Designer.t) :
  imageFlipped s = true ->
  applyTransforms (imageTransform s) (boxCenter s)
  = (fst (imagePosition s)
     + imageHeight s * sin (radians (imageRotation s)),
     snd (imagePosition s)
     - imageHeight s * cos (radians (imageRotation s)))%R.
Proof.
  intros Hflip.
  unfold imageTransform, boxCenter, applyTransforms.
  unfold imageX, imageY, imageCenterX, imageCenterY.
  rewrite Hflip. simpl.
  destruct (imagePosition s) as [cx cy]. simpl. f_equal; field.
Qed.

Lemma flipped_box_center_witness :
  let s := Designer.mk "#ffffff" true "board.png" 100%R 0%R true
             (8%R, 20%R) 0 [] None "" 6%R "#0f172a" "Impact" none ""
             false ["#ffffff"] false in
  applyTransforms (imageTransform s) (boxCenter s)
  = (8 + imageHeight s * sin (radians 0), 20 - imageHeight s * cos (radians 0))%R.
Proof.
  cbv zeta. apply flipped_box_center. reflexivity.
Defined.

(** ** Scene compositor *)

Definition textsAt (layers : list (string * Z)) : Designer.t :=
  setTextElements
    (map (fun p =>
            TextElement.mk (fst p) "New Text" 16%R 50%R 6%R "#0f172a"
              "Impact" 0%R None (snd p)) layers)
    initial.

(** The text elements "a" at layer 3 and "b" at layer 1 with the image
    at layer 2 between them. *)
Definition imageBetween : Designer.t :=
  setImageLayer 2 (setImageUrl "board.png" (textsAt [("a", 3); ("b", 1)])).

(** C6.  [layerElements] holds one entry for each text element, with
    the layer of that element, and, when the image has a source, one
    entry for the image, with the layer of the image; it is sorted by
    ascending layer; [renderLayers] draws every entry, a text entry as
    its text and the image entry as the image, in that order, index 0
    first; text elements with layers 3, 1, 2 come out in the order of
    layers 1, 2, 3, and texts at layers 3 and 1 with the image at layer
    2 come out as the text at 1, the image, the text at 3. *)
Theorem layerElements_sorted_by_layer (s : Designer.t) :
  Permutation (layerElements s)
    ((if JS.truthy (imageUrl s)
      then [LayerElement.mk image (imageLayer s) None] else [])
     ++ map (fun t => LayerElement.mk text (TextElement.layer t) (Some t))
          (textElements s))
  /\ List.length (layerElements s)
     = (List.length (textElements s)
        + (if JS.truthy (imageUrl s) then 1 else 0))%nat
  /\ StronglySorted
       (fun a b => LayerElement.layer a <= LayerElement.layer b)
       (layerElements s)
  /\ renderLayers s
     = map (fun e =>
              match LayerElement.data e with
              | Some t => Some (TextNode t)
              | None =>
                  Some (ImageNode (imageUrl s) (16 * (imageScale s / 100))
                          (40 * (imageScale s / 100)) (imageTransform s))
              end) (layerElements s)
  /\ map LayerElement.layer
       (layerElements (textsAt [("a", 3); ("b", 1); ("c", 2)]))
     = [1; 2; 3]
  /\ map (fun e => option_map TextElement.id (LayerElement.data e))
       (layerElements (textsAt [("a", 3); ("b", 1); ("c", 2)]))
     = [Some "b"; Some "c"; Some "a"]
  /\ map (fun e => (LayerElement.type e, LayerElement.layer e,
                    option_map TextElement.id (LayerElement.data e)))
       (layerElements imageBetween)
     = [(text, 1, Some "b"); (image, 2, None); (text, 3, Some "a")].
Proof.
  assert (Permutation (layerElements s) (layerEntries s)) as Hp
      by apply sort_perm.
  split; [exact Hp|]. split; [|split; [|split; [|split; [|split]]]].
  - rewrite (Permutation_length Hp).
    unfold layerEntries. rewrite length_app, length_map.
    destruct (JS.truthy (imageUrl s)); simpl; lia.
  - apply (sort_sorted _ LayerElement.layer). intros a b. lia.
  - unfold renderLayers. apply map_ext_in. intros e He.
    apply (Permutation_in _ Hp) in He. unfold layerEntries in He.
    apply in_app_or in He. destruct He as [He|He].
    + destruct (JS.truthy (imageUrl s)); [|contradiction].
      destruct He as [<-|[]]. reflexivity.
    + apply in_map_iff in He. destruct He as (t & <- & _). reflexivity.
  - vm_compute. reflexivity.
  - vm_compute. reflexivity.
  - vm_compute. reflexivity.
Qed.

(** ** Export pipeline *)

(** C9.  Whatever the host answers, after [exportMutation] the guides
    flag, and with it the whole component state, is what it was before
    the export began; the surface was serialised with the guides
    hidden; and a failed export hands no file to the browser. *)
Theorem export_restores_guides
        (mounted : bool) (raster : Raster) (now : Z) (w : World) :
  let w' := exportMutation mounted raster now w in
  showGuides (designer w') = showGuides (designer w)
  /\ designer w' = designer w
  /\ Forall (fun d => showGuides d = false)
       (skipn (List.length (serialized w)) (serialized w'))
  /\ (mounted && match raster with Encoded => true | _ => false end = false
      -> downloads w' = downloads w
         /\ toasts w' = toasts w ++ [ExportFailed]).
Proof.
  cbv zeta. unfold exportMutation.
  assert (forall d, setShowGuides (showGuides d) (setShowGuides false d) = d)
    as Hrestore by (now intros []).
  destruct mounted; [destruct raster|]; simpl;
    (split; [reflexivity|]);
    (split; [first [apply Hrestore|reflexivity]|]);
    (split;
     [first [rewrite skipn_app, Nat.sub_diag, skipn_all; simpl;
             now repeat constructor
            |rewrite skipn_all; constructor]
     |first [discriminate|intros _; split; reflexivity]]).
Qed.

(** The capture of a variant fails: the surface is there and the
    conversion to a raster rejects. *)
Definition fails (f : Frame) : Prop :=
  mounted f = true /\ raster f <> Encoded.

(** The scene on the surface while variant [c] of a batch is captured. *)
Definition variantScene (s : Designer.t) (c : string) : Designer.t :=
  setBackgroundColor c (setShowGuides false (setBatchExporting true s)).

Section CaptureLoop.
Variables (host : nat -> Frame) (designName : string).

Lemma captureLoop_thrown (colors : list string) :
  forall (i : nat) (zip : JSZip) (w : World) (k : nat),
    (k < List.length colors)%nat ->
    (forall j, (j < k)%nat -> ~ fails (host (i + j))) ->
    fails (host (i + k)) ->
    exists l w',
      captureLoop host designName i colors zip w = (Thrown, w')
      /\ toasts w' = toasts w
      /\ downloads w' = downloads w
      /\ serialized w' = serialized w ++ l
      /\ (List.length l <= S k)%nat
      /\ Forall (fun d => In (backgroundColor d) (firstn (S k) colors)) l.
Proof.
  induction colors as [|color rest IH]; intros i zip w k Hk Hbefore Hfail;
    [simpl in Hk; lia|].
  destruct k as [|k].
  - rewrite Nat.add_0_r in Hfail. destruct Hfail as [Hm Hr].
    simpl. rewrite Hm. simpl.
    exists [setBackgroundColor color (designer w)].
    destruct (raster (host i)); [congruence|..];
      (eexists; split; [reflexivity|]; simpl;
       repeat split; auto; repeat constructor; now left).
  - assert (~ fails (host i)) as Hi.
    { rewrite <- (Nat.add_0_r i). apply Hbefore. lia. }
    assert (forall z w0,
               exists l w',
                 captureLoop host designName (S i) rest z w0 = (Thrown, w')
                 /\ toasts w' = toasts w0
                 /\ downloads w' = downloads w0
                 /\ serialized w' = serialized w0 ++ l
                 /\ (List.length l <= S k)%nat
                 /\ Forall (fun d => In (backgroundColor d)
                                       (firstn (S k) rest)) l) as Hrec.
    { intros z w0. apply IH.
      - simpl in Hk. lia.
      - intros j Hj. rewrite Nat.add_succ_comm. apply Hbefore. lia.
      - now rewrite Nat.add_succ_comm. }
    assert (forall l, Forall (fun d => In (backgroundColor d)
                                         (firstn (S k) rest)) l ->
                      Forall (fun d => In (backgroundColor d)
                                         (firstn (S (S k)) (color :: rest)))
                        l) as Hmono.
    { intros l. apply Forall_impl. intros d Hd. now right. }
    simpl captureLoop.
    destruct (mounted (host i)) eqn:Hm; simpl negb; cbv iota.
    + destruct (raster (host i)) eqn:Hr;
        [|exfalso; apply Hi; split; congruence..].
      destruct (Hrec
                  (zip_file (entryName designName color)
                     (Png (designer
                             (onDesigner (setBackgroundColor color) w)))
                     zip)
                  (serializeToString
                     (onDesigner (setBackgroundColor color) w)))
        as (l & w' & E & Ht & Hd & Hs & Hl & Hf).
      exists (setBackgroundColor color (designer w) :: l), w'.
      split; [exact E|]. split; [exact Ht|]. split; [exact Hd|].
      split; [rewrite Hs; simpl; now rewrite <- app_assoc|].
      split; [simpl; lia|].
      constructor; [now left|now apply Hmono].
    + destruct (Hrec zip (onDesigner (setBackgroundColor color) w))
        as (l & w' & E & Ht & Hd & Hs & Hl & Hf).
      exists l, w'.
      split; [exact E|]. split; [exact Ht|]. split; [exact Hd|].
      split; [exact Hs|]. split; [lia|now apply Hmono].
Qed.

End CaptureLoop.

(** C7.  [handleBatchExport] ends with the background colour and the
    guides flag it started with, on each of its paths: the early
    return, the completed batch and the caught failure.  When the
    capture of variant [k] is the first to fail, no later variant is
    serialised, no archive and so no raster is handed to the browser,
    and exactly one toast, the batch failure, is shown. *)
Theorem batch_export_restores_state
        (surface : bool) (host : nat -> Frame) (generated : bool)
        (w : World) :
  let w' := handleBatchExport surface host generated w in
  let colors := batchColors (designer w) in
  backgroundColor (designer w') = backgroundColor (designer w)
  /\ showGuides (designer w') = showGuides (designer w)
  /\ (forall k,
         surface = true ->
         (k < List.length colors)%nat ->
         (forall i, (i < k)%nat -> ~ fails (host i)) ->
         fails (host k) ->
         downloads w' = downloads w
         /\ toasts w' = toasts w ++ [BatchExportFailed]
         /\ exists l,
             serialized w' = serialized w ++ l
             /\ (List.length l <= S k)%nat
             /\ Forall (fun d => In (backgroundColor d)
                                   (firstn (S k) colors)) l).
Proof.
  cbv zeta. unfold handleBatchExport.
  destruct (negb surface || (List.length (batchColors (designer w)) =? 0)%nat)
    eqn:Hguard.
  - split; [reflexivity|]. split; [reflexivity|].
    intros k -> Hk. simpl in Hguard. apply Nat.eqb_eq in Hguard. lia.
  - split; [|split].
    + destruct (captureLoop _ _ _ _ _ _) as [[zip'|] w3];
        [destruct generated|]; reflexivity.
    + destruct (captureLoop _ _ _ _ _ _) as [[zip'|] w3];
        [destruct generated|]; reflexivity.
    + intros k _ Hk Hbefore Hfail.
      destruct (captureLoop_thrown host (designName (designer w))
                  (batchColors (designer w)) 0 []
                  (onDesigner (setShowGuides false)
                     (onDesigner (setBatchExporting true) w)) k Hk)
        as (l & w3 & E & Ht & Hd & Hs & Hl & Hf); [assumption..|].
      rewrite E. simpl. rewrite Ht, Hd, Hs. simpl.
      split; [reflexivity|]. split; [reflexivity|].
      exists l. auto.
Qed.

Lemma batch_export_restores_state_witness :
  let w :=
    mkWorld (setBatchColors ["#ffffff"; "#000000"; "#ff0000"] initial)
      [] [] [] in
  let host := fun i => mkFrame true (if (i =? 1)%nat then LoadError
                                     else Encoded) in
  let w' := handleBatchExport true host true w in
  backgroundColor (designer w') = "#ffffff"
  /\ showGuides (designer w') = true
  /\ downloads w' = []
  /\ toasts w' = [BatchExportFailed]
  /\ map backgroundColor (serialized w') = ["#ffffff"; "#000000"].
Proof.
  cbv zeta.
  destruct (batch_export_restores_state true
              (fun i => mkFrame true (if (i =? 1)%nat then LoadError
                                      else Encoded))
              true
              (mkWorld
                 (setBatchColors ["#ffffff"; "#000000"; "#ff0000"] initial)
                 [] [] []))
    as (Hb & Hg & Hfail).
  destruct (Hfail 1%nat eq_refl) as (Hd & Ht & _).
  - simpl. lia.
  - intros i Hi [_ Hr]. assert (i = 0%nat) as -> by lia. now apply Hr.
  - split; [reflexivity|discriminate].
  - split; [exact Hb|]. split; [exact Hg|]. split; [exact Hd|].
    split; [exact Ht|]. vm_compute. reflexivity.
Defined.

Section StringFacts.

Lemma length_append (a b : string) :
  String.length (String.append a b)
  = (String.length a + String.length b)%nat.
Proof. induction a as [|c a IH]; simpl; [reflexivity|now rewrite IH]. Qed.

Lemma append_inv_head (a x y : string) :
  String.append a x = String.append a y -> x = y.
Proof.
  induction a as [|c a IH]; simpl; [trivial|].
  intros [= H]. now apply IH.
Qed.

Lemma append_inv_tail (a : string) :
  forall x y, String.append x a = String.append y a -> x = y.
Proof.
  induction x as [|c x IH]; intros [|d y]; simpl; intros H.
  - reflexivity.
  - apply (f_equal String.length) in H. simpl in H.
    rewrite length_append in H. lia.
  - apply (f_equal String.length) in H. simpl in H.
    rewrite length_append in H. lia.
  - injection H as -> H. f_equal. now apply IH.
Qed.

Lemma entryName_inj (designName c1 c2 : string) :
  entryName designName c1 = entryName designName c2 ->
  JS.remove_first "#"%char c1 = JS.remove_first "#"%char c2.
Proof.
  unfold entryName. intros H.
  apply append_inv_head, append_inv_head in H.
  now apply append_inv_tail in H.
Qed.

End StringFacts.

(** A colour in the notation the colour pickers produce: ["#"] and the
    digits. *)
Definition hexColor (c : string) : Prop := exists digits, c = String "#" digits.

Lemma NoDup_map_in {A B : Type} (f : A -> B) (l : list A) :
  (forall a b, In a l -> In b l -> f a = f b -> a = b) ->
  NoDup l -> NoDup (map f l).
Proof.
  intros Hf. induction 1 as [|a l Ha Hl IH]; simpl; constructor.
  - intros Hin. apply in_map_iff in Hin. destruct Hin as (b & E & Hb).
    apply Hf in E; [now subst|now right|now left].
  - apply IH. intros b c Hb Hc. apply Hf; now right.
Qed.

Lemma hexColors_stripped (colors : list string) :
  NoDup colors -> Forall hexColor colors ->
  NoDup (map (JS.remove_first "#"%char) colors).
Proof.
  intros Hnd Hhex. apply NoDup_map_in; [|assumption].
  intros a b Ha Hb E. rewrite Forall_forall in Hhex.
  destruct (Hhex a Ha) as [da ->], (Hhex b Hb) as [db ->].
  simpl in E. now subst.
Qed.

Lemma zip_file_new (name : string) (data : Blob) (zip : JSZip) :
  ~ In name (map fst zip) -> zip_file name data zip = zip ++ [(name, data)].
Proof.
  induction zip as [|[n b] zip IH]; simpl; intros H; [reflexivity|].
  destruct (String.eqb_spec n name) as [E|E]; [exfalso; auto|].
  f_equal. apply IH. auto.
Qed.

Section CaptureAll.
Variables (host : nat -> Frame) (designName : string) (base : Designer.t).

Lemma captureLoop_all (colors : list string) :
  forall (i : nat) (zip : JSZip) (w : World),
    (forall j, (j < List.length colors)%nat ->
               host (i + j)%nat = mkFrame true Encoded) ->
    (forall c, setBackgroundColor c (designer w)
               = setBackgroundColor c base) ->
    NoDup (map (entryName designName) colors) ->
    (forall c, In c colors ->
               ~ In (entryName designName c) (map fst zip)) ->
    exists w',
      captureLoop host designName i colors zip w
      = (Normal
           (zip ++ map (fun c => (entryName designName c,
                                  Png (setBackgroundColor c base)))
                    colors), w')
      /\ toasts w' = toasts w
      /\ downloads w' = downloads w
      /\ serialized w'
         = serialized w ++ map (fun c => setBackgroundColor c base) colors
      /\ (forall c, setBackgroundColor c (designer w')
                    = setBackgroundColor c base).
Proof.
  induction colors as [|color rest IH]; intros i zip w Hhost Hbase Hnd Hnew.
  - exists w. simpl. rewrite !app_nil_r. repeat split. exact Hbase.
  - simpl captureLoop.
    pose proof (Hhost 0%nat ltac:(simpl; lia)) as H0.
    rewrite Nat.add_0_r in H0. rewrite H0. simpl negb. cbv iota.
    simpl mounted. simpl raster. cbv iota.
    inversion Hnd as [|? ? Hcolor Hrest]; subst.
    rewrite zip_file_new by (apply Hnew; now left).
    change (designer (onDesigner (setBackgroundColor color) w))
      with (setBackgroundColor color (designer w)).
    rewrite (Hbase color).
    destruct (IH (S i)
                (zip ++ [(entryName designName color,
                          Png (setBackgroundColor color base))])
                (serializeToString
                   (onDesigner (setBackgroundColor color) w)))
      as (w' & E & Ht & Hd & Hs & Hb).
    + intros j Hj. rewrite Nat.add_succ_comm. apply Hhost. simpl. lia.
    + intros c. simpl. rewrite <- (Hbase c). reflexivity.
    + assumption.
    + intros c Hc Hin. rewrite map_app, in_app_iff in Hin.
      destruct Hin as [Hin | [Hin | [] ] ].
      * apply (Hnew c); [now right|assumption].
      * simpl in Hin. apply Hcolor. rewrite Hin. now apply in_map.
    + exists w'. split; [|split; [|split; [|split]]].
      * rewrite E. simpl. now rewrite <- app_assoc.
      * exact Ht.
      * exact Hd.
      * rewrite Hs. simpl. rewrite (Hbase color).
        now rewrite <- app_assoc.
      * exact Hb.
Qed.

End CaptureAll.

(** X23.  What the batch export does ensure.  Given a non-empty list
    of N variants whose colour values stay distinct once their first
    ["#"] is removed, a surface that stays mounted, captures that all
    succeed and an archive that is generated: the archive handed to the
    browser holds exactly N
    rasters, one for each variant in list order, each named from the
    design name and the variant's colour and showing the scene with
    that background and the guides hidden; the surface was serialised
    once per variant, in list order; the complete toast reports N; and
    background colour and guides are what they were before. *)
Theorem batch_export_cardinality (host : nat -> Frame) (w : World) :
  let s := designer w in
  let colors := batchColors s in
  let w' := handleBatchExport true host true w in
  colors <> [] ->
  NoDup (map (JS.remove_first "#"%char) colors) ->
  (forall i, (i < List.length colors)%nat -> host i = mkFrame true Encoded) ->
  exists zip,
    downloads w'
    = downloads w
      ++ [(String.append (JS.or_else (designName s) "fingerboard-designs")
             "-batch.zip", ZipFile zip)]
    /\ List.length zip = List.length colors
    /\ zip = map (fun c => (entryName (designName s) c,
                            Png (variantScene s c))) colors
    /\ serialized w' = serialized w ++ map (variantScene s) colors
    /\ toasts w' = toasts w ++ [BatchExportComplete (List.length colors)]
    /\ backgroundColor (designer w') = backgroundColor s
    /\ showGuides (designer w') = showGuides s.
Proof.
  cbv zeta. intros Hne Hnd Hhost. unfold handleBatchExport.
  destruct (batchColors (designer w)) as [|c0 cs] eqn:Ec; [congruence|].
  rewrite <- Ec in *. simpl negb. simpl orb.
  replace (List.length (batchColors (designer w)) =? 0)%nat with false
    by (rewrite Ec; reflexivity).
  destruct (captureLoop_all host (designName (designer w))
              (setShowGuides false (setBatchExporting true (designer w)))
              (batchColors (designer w)) 0 []
              (onDesigner (setShowGuides false)
                 (onDesigner (setBatchExporting true) w)))
    as (w3 & E & Ht & Hd & Hs & Hb).
  - intros j Hj. now apply Hhost.
  - reflexivity.
  - apply NoDup_map_in.
    + intros a b Ha Hb E. apply entryName_inj in E.
      eapply NoDup_map_eq; eauto.
    + eapply NoDup_map_inv. exact Hnd.
  - intros c _ [].
  - rewrite E. simpl app.
    eexists. split; [simpl; rewrite Hd; reflexivity|].
    split; [now rewrite length_map|]. split; [reflexivity|].
    split; [simpl; exact Hs|]. split; [simpl; now rewrite Ht|].
    split; reflexivity.
Qed.

Lemma batch_export_cardinality_witness :
  let w :=
    mkWorld (setBatchColors ["#ffffff"; "#000000"] initial) [] [] [] in
  let w' := handleBatchExport true (fun _ => mkFrame true Encoded) true w in
  NoDup (map (JS.remove_first "#"%char) (batchColors (designer w)))
  /\ exists zip,
      downloads w' = [("fingerboard-designs-batch.zip", ZipFile zip)]
      /\ List.length zip = 2%nat
      /\ map fst zip = ["design-ffffff.png"; "design-000000.png"].
Proof.
  cbv zeta.
  assert (NoDup (map (JS.remove_first "#"%char)
                   (batchColors
                      (setBatchColors ["#ffffff"; "#000000"] initial))))
    as Hnd.
  { apply hexColors_stripped.
    - repeat constructor; simpl; intuition discriminate.
    - repeat constructor; eexists; reflexivity. }
  split; [exact Hnd|].
  destruct (batch_export_cardinality (fun _ => mkFrame true Encoded)
              (mkWorld (setBatchColors ["#ffffff"; "#000000"] initial)
                 [] [] []))
    as (zip & Hd & Hl & Hz & _); [discriminate|exact Hnd|reflexivity|].
  exists zip. split; [exact Hd|]. split; [exact Hl|].
  rewrite Hz. reflexivity.
Defined.

(** A session whose background colour was loaded as ["ffffff"], with
    the picker's ["#ffffff"] added as a second variant. *)
Definition clashWorld : World :=
  mkWorld
    (setBatchColors ["ffffff"; "#ffffff"]
       (setBackgroundColor "ffffff" initial))
    [] [] [].

(** C8 (code at fault).  For two distinct colour values that differ by
    the ["#"] only, both rasters get the name [design-ffffff.png] and
    the second replaces the first: the archive of the completed batch
    holds one raster, not two, while the toast reports two designs. *)
Lemma batch_export_name_clash :
  let w' :=
    handleBatchExport true (fun _ => mkFrame true Encoded) true clashWorld in
  NoDup (batchColors (designer clashWorld))
  /\ List.length (batchColors (designer clashWorld)) = 2%nat
  /\ toasts w' = [BatchExportComplete 2]
  /\ exists b,
      downloads w'
      = [("fingerboard-designs-batch.zip",
          ZipFile [("design-ffffff.png", b)])].
Proof.
  cbv zeta. split; [|split; [|split]].
  - vm_compute. repeat constructor; simpl; intuition discriminate.
  - reflexivity.
  - vm_compute. reflexivity.
  - eexists. vm_compute. reflexivity.
Qed.

(** ** What the callbacks wired to the interface do preserve *)

(** The action is one of the text list's or of the upload, and a
    creation draws an identifier that no text element has yet. *)
Definition admissible (a : Action) (s : Designer.t) : Prop :=
  match a with
  | AddTextBox now => ~ In (JS.toString now) (ids s)
  | AddTextElement now =>
      ~ In (String.append "text-" (JS.toString now)) (ids s)
  | MoveUp Image | MoveDown Image => False
  | _ => True
  end.

Fixpoint admissibleRun (actions : list Action) (s : Designer.t) : Prop :=
  match actions with
  | [] => True
  | a :: rest => admissible a s /\ admissibleRun rest (act a s)
  end.

Lemma NoDup_snoc {A : Type} (l : list A) (a : A) :
  NoDup l -> ~ In a l -> NoDup (l ++ [a]).
Proof.
  intros Hl Ha. apply NoDup_app; [assumption|repeat constructor; intros []|].
  intros b Hb [<-|[]]. contradiction.
Qed.

Lemma filter_keeps_distinct {K : Type} (key : TextElement.t -> K)
      (keep : TextElement.t -> bool) :
  forall ts, NoDup (map key ts) -> NoDup (map key (filter keep ts)).
Proof.
  intros ts. induction ts as [|t ts IH]; simpl; intros H; [constructor|].
  apply NoDup_cons_iff in H. destruct H as [Ht Hts].
  destruct (keep t); simpl; [constructor|]; auto.
  intros Hin. apply Ht. apply in_map_iff in Hin.
  destruct Hin as (u & E & Hu). apply filter_In in Hu.
  rewrite <- E. apply in_map. apply Hu.
Qed.

Lemma wfTexts_append (s s' : Designer.t) (new : TextElement.t) :
  wfTexts s ->
  Forall safe (textLayers s) ->
  textElements s' = textElements s ++ [new] ->
  ~ In (TextElement.id new) (ids s) ->
  TextElement.layer new
  = JS.plus1 (JS.max_or (-1) (map TextElement.layer (textElements s))) ->
  wfTexts s'.
Proof.
  intros [Hid Hly] Hsafe E Hfresh Hnew. unfold wfTexts, ids, textLayers.
  rewrite (new_layer_exact (map TextElement.layer (textElements s)) Hsafe)
    in Hnew.
  rewrite E, !map_app. simpl. split; apply NoDup_snoc; try assumption.
  intros Hin. apply (max_or_ge (-1)) in Hin. lia.
Qed.

Lemma moveLayer_wfTexts (d : Dir) (i : string) (s : Designer.t) :
  wfTexts s -> wfTexts (moveLayer d i s).
Proof.
  intros Hwf.
  destruct (JS.find (hasId i) (textElements s)) as [el|] eqn:Hf.
  - rewrite (moveLayer_eq d i s el Hwf Hf).
    destruct (nextBeyond d (TextElement.layer el) s) as [m|];
      [|exact Hwf].
    destruct Hwf as [Hid Hly]. unfold wfTexts, ids, textLayers.
    replace (textElements (setTextElements _ _))
      with (map (relayer (transp (TextElement.layer el)
                            (ElementLayer.layer m))) (textElements s))
      by now destruct (ElementLayer.type m).
    rewrite !map_map. simpl. split; [exact Hid|].
    rewrite <- (map_map TextElement.layer).
    apply NoDup_map_inj; [|exact Hly].
    intros u v E.
    rewrite <- (transp_invol (TextElement.layer el) (ElementLayer.layer m) u).
    rewrite E. apply transp_invol.
  - unfold moveLayer. now rewrite Hf.
Qed.

Lemma act_wfTexts (a : Action) (s : Designer.t) :
  wfTexts s -> Forall safe (textLayers s) -> admissible a s ->
  wfTexts (act a s).
Proof.
  intros Hwf Hsafe Ha. destruct a as [now|now|url|id|e|e]; simpl in *.
  - eapply wfTexts_append;
      [exact Hwf|exact Hsafe|reflexivity|exact Ha|reflexivity].
  - unfold addTextElement. destruct (blank (textInput s)); [exact Hwf|].
    eapply wfTexts_append;
      [exact Hwf|exact Hsafe|reflexivity|exact Ha|reflexivity].
  - exact Hwf.
  - destruct Hwf as [Hid Hly].
    assert (textElements (deleteTextBox id s)
            = filter (fun t => negb (String.eqb (TextElement.id t) id))
                (textElements s)) as E.
    { unfold deleteTextBox. destruct (selectedTextId s) as [sel|];
        [destruct (String.eqb sel id)|]; reflexivity. }
    unfold wfTexts, ids, textLayers. rewrite E.
    split; now apply filter_keeps_distinct.
  - destruct e as [|i]; [contradiction|].
    now apply (moveLayer_wfTexts Up).
  - destruct e as [|i]; [contradiction|].
    now apply (moveLayer_wfTexts Down).
Qed.

(** Every layer of the scene, the image's included, lies between [lo]
    and [hi]. *)
Definition within (lo hi : Z) (s : Designer.t) : Prop :=
  Forall (fun l => lo <= l <= hi) (allLayers s).

Lemma within_wider (lo hi hi' : Z) (s : Designer.t) :
  hi <= hi' -> within lo hi s -> within lo hi' s.
Proof.
  intros Hh H. eapply Forall_impl; [|exact H]. simpl. intros l Hl. lia.
Qed.

Lemma within_safe (lo hi : Z) (s : Designer.t) :
  - (2 ^ 53) <= lo -> hi < 2 ^ 53 -> within lo hi s ->
  Forall safe (textLayers s).
Proof.
  intros Hlo Hhi H. unfold within, allLayers in H.
  apply Forall_app in H. destruct H as [H _].
  eapply Forall_impl; [|exact H]. unfold safe. simpl. intros l Hl. lia.
Qed.

Lemma within_append (lo hi : Z) (s s' : Designer.t) (new : TextElement.t) :
  - (2 ^ 53) <= lo <= -1 -> -1 <= hi < 2 ^ 53 ->
  within lo hi s ->
  textElements s' = textElements s ++ [new] ->
  imageLayer s' = imageLayer s ->
  TextElement.layer new
  = JS.plus1 (JS.max_or (-1) (map TextElement.layer (textElements s))) ->
  within lo (hi + 1) s'.
Proof.
  intros Hlo Hhi H E Ei Hnew.
  pose proof (within_safe lo hi s (proj1 Hlo) (proj2 Hhi) H) as Hsafe.
  rewrite (new_layer_exact (map TextElement.layer (textElements s)) Hsafe)
    in Hnew.
  unfold within, allLayers in *. rewrite E, Ei, map_app.
  apply Forall_app in H. destruct H as [Ht Him].
  assert (lo <= JS.max_or (-1) (map TextElement.layer (textElements s))
          <= hi) as Hmax.
  { apply max_or_within; [lia|exact Ht]. }
  apply Forall_app. split; [apply Forall_app; split|].
  - eapply Forall_impl; [|exact Ht]. simpl. intros l Hl. lia.
  - constructor; [|constructor]. lia.
  - eapply Forall_impl; [|exact Him]. simpl. intros l Hl. lia.
Qed.

Lemma move_within (d : Dir) (e : Element) (lo hi : Z) (s : Designer.t) :
  wfTexts s -> within lo hi s -> within lo hi (move d e s).
Proof.
  intros Hwf H. destruct (layerOf s e) as [L|] eqn:HL.
  - destruct (move_spec d s e L Hwf HL)
      as [[_ ->]|(n & ln & _ & _ & _ & Hex)]; [exact H|].
    destruct Hex as (_ & _ & _ & Hp & _).
    unfold within. eapply Permutation_Forall; [|exact H].
    symmetry. exact Hp.
  - destruct e as [|i]; [discriminate HL|]. simpl in *.
    unfold moveLayer.
    destruct (JS.find (hasId i) (textElements s)); [discriminate HL|].
    exact H.
Qed.

Lemma act_within (a : Action) (lo hi : Z) (s : Designer.t) :
  wfTexts s ->
  - (2 ^ 53) <= lo <= -1 -> -1 <= hi < 2 ^ 53 ->
  within lo hi s -> within lo (hi + 1) (act a s).
Proof.
  intros Hwf Hlo Hhi H.
  destruct a as [now|now|url|id|e|e]; simpl act.
  - eapply (within_append lo hi s); try eassumption; reflexivity.
  - unfold addTextElement. destruct (blank (textInput s)); simpl.
    + apply (within_wider lo hi); [lia|exact H].
    + eapply (within_append lo hi s); try eassumption; reflexivity.
  - apply (within_wider lo hi); [lia|exact H].
  - apply (within_wider lo hi); [lia|].
    assert (textElements (deleteTextBox id s)
            = filter (fun t => negb (String.eqb (TextElement.id t) id))
                (textElements s)
            /\ imageLayer (deleteTextBox id s) = imageLayer s) as [E Ei].
    { unfold deleteTextBox. destruct (selectedTextId s) as [sel|];
        [destruct (String.eqb sel id)|]; split; reflexivity. }
    unfold within, allLayers in *. rewrite E, Ei.
    apply Forall_app in H. destruct H as [Ht Him].
    apply Forall_app. split; [|exact Him].
    apply Forall_forall. intros l Hl. apply in_map_iff in Hl.
    destruct Hl as (t & <- & Hin). apply filter_In in Hin.
    rewrite Forall_forall in Ht. apply Ht. apply in_map. apply Hin.
  - rewrite moveUp_move. apply (within_wider lo hi); [lia|].
    now apply move_within.
  - rewrite moveDown_move. apply (within_wider lo hi); [lia|].
    now apply move_within.
Qed.

Lemma run_wfTexts (actions : list Action) :
  forall (s : Designer.t) (lo hi : Z),
    wfTexts s -> admissibleRun actions s ->
    - (2 ^ 53) <= lo <= -1 -> -1 <= hi ->
    hi + Z.of_nat (List.length actions) <= 2 ^ 53 ->
    within lo hi s ->
    wfTexts (run actions s).
Proof.
  induction actions as [|a rest IH]; simpl;
    intros s lo hi Hwf Hrun Hlo Hhi Hlen H; [exact Hwf|].
  destruct Hrun as [Ha Hrest].
  assert (hi < 2 ^ 53) as Hlt by lia.
  apply (IH (act a s) lo (hi + 1)).
  - apply act_wfTexts; [exact Hwf| |exact Ha].
    apply (within_safe lo hi); [lia|exact Hlt|exact H].
  - exact Hrest.
  - exact Hlo.
  - lia.
  - lia.
  - apply act_within; [exact Hwf|exact Hlo|lia|exact H].
Qed.

(** X3.  On a scene whose layers lie between [- 2 ^ 53] and [2 ^ 52], up
    to [2 ^ 52] text creations with fresh identifiers, uploads,
    deletions and moves of text elements keep the identifiers of the
    text elements pairwise distinct and their layers pairwise distinct:
    within these bounds every [maxLayer + 1] is exact. *)
Theorem text_layers_stay_distinct (actions : list Action) (s : Designer.t) :
  wfTexts s -> admissibleRun actions s ->
  Forall (fun l => - (2 ^ 53) <= l <= 2 ^ 52) (allLayers s) ->
  Z.of_nat (List.length actions) <= 2 ^ 52 ->
  wfTexts (run actions s).
Proof.
  intros Hwf Hrun Hall Hlen.
  apply (run_wfTexts actions s (- (2 ^ 53)) (2 ^ 52)); try assumption.
  - change (2 ^ 53) with 9007199254740992. lia.
  - change (2 ^ 52) with 4503599627370496. lia.
  - change (2 ^ 53) with 9007199254740992.
    change (2 ^ 52) with 4503599627370496 in *. lia.
Qed.

Lemma text_layers_stay_distinct_witness :
  wfTexts
    (run [AddImage "board.png"; AddTextBox 1; AddTextBox 2;
          MoveDown (Text "2"); DeleteTextBox "2"; AddTextBox 3] initial).
Proof.
  apply text_layers_stay_distinct.
  - split; constructor.
  - vm_compute. intuition discriminate.
  - repeat constructor; vm_compute; discriminate.
  - vm_compute. discriminate.
Defined.

(** * The rest of the component *)

(** ** Editing callbacks (designer.tsx, lines 201-208, 374-445, 1023-1066) *)

(** The remaining [set...] functions of the state in [Designer.t]. *)
Definition setImagePosition (v : R * R) (s : Designer.t) : Designer.t :=
  Designer.mk (backgroundColor s) (showGuides s) (imageUrl s) (imageScale s)
    (imageRotation s) (imageFlipped s) v (imageLayer s) (textElements s)
    (selectedTextId s) (textInput s) (textSize s) (textColor s)
    (fontFamily s) (textStroke s) (designName s) (batchExportOpen s)
    (batchColors s) (batchExporting s).

Definition setImageFlipped (v : bool) (s : Designer.t) : Designer.t :=
  Designer.mk (backgroundColor s) (showGuides s) (imageUrl s) (imageScale s)
    (imageRotation s) v (imagePosition s) (imageLayer s) (textElements s)
    (selectedTextId s) (textInput s) (textSize s) (textColor s)
    (fontFamily s) (textStroke s) (designName s) (batchExportOpen s)
    (batchColors s) (batchExporting s).

Definition setTextSize (v : R) (s : Designer.t) : Designer.t :=
  Designer.mk (backgroundColor s) (showGuides s) (imageUrl s) (imageScale s)
    (imageRotation s) (imageFlipped s) (imagePosition s) (imageLayer s)
    (textElements s) (selectedTextId s) (textInput s) v (textColor s)
    (fontFamily s) (textStroke s) (designName s) (batchExportOpen s)
    (batchColors s) (batchExporting s).

Definition setTextColor (v : string) (s : Designer.t) : Designer.t :=
  Designer.mk (backgroundColor s) (showGuides s) (imageUrl s) (imageScale s)
    (imageRotation s) (imageFlipped s) (imagePosition s) (imageLayer s)
    (textElements s) (selectedTextId s) (textInput s) (textSize s) v
    (fontFamily s) (textStroke s) (designName s) (batchExportOpen s)
    (batchColors s) (batchExporting s).

Definition setDesignName (v : string) (s : Designer.t) : Designer.t :=
  Designer.mk (backgroundColor s) (showGuides s) (imageUrl s) (imageScale s)
    (imageRotation s) (imageFlipped s) (imagePosition s) (imageLayer s)
    (textElements s) (selectedTextId s) (textInput s) (textSize s)
    (textColor s) (fontFamily s) (textStroke s) v (batchExportOpen s)
    (batchColors s) (batchExporting s).

(** Object spreads that replace other fields than [layer]. *)
Definition withContent (v : string) (e : TextElement.t) : TextElement.t :=
  TextElement.mk (TextElement.id e) v (TextElement.x e) (TextElement.y e)
    (TextElement.fontSize e) (TextElement.color e) (TextElement.fontFamily e)
    (TextElement.strokeWidth e) (TextElement.strokeColor e)
    (TextElement.layer e).

Definition withFontSize (v : R) (e : TextElement.t) : TextElement.t :=
  TextElement.mk (TextElement.id e) (TextElement.content e) (TextElement.x e)
    (TextElement.y e) v (TextElement.color e) (TextElement.fontFamily e)
    (TextElement.strokeWidth e) (TextElement.strokeColor e)
    (TextElement.layer e).

Definition withColor (v : string) (e : TextElement.t) : TextElement.t :=
  TextElement.mk (TextElement.id e) (TextElement.content e) (TextElement.x e)
    (TextElement.y e) (TextElement.fontSize e) v (TextElement.fontFamily e)
    (TextElement.strokeWidth e) (TextElement.strokeColor e)
    (TextElement.layer e).

(** [{ ...t, x: t.x + dx, y: t.y + dy }]. *)
Definition movedBy (dx dy : R) (e : TextElement.t) : TextElement.t :=
  TextElement.mk (TextElement.id e) (TextElement.content e)
    (TextElement.x e + dx) (TextElement.y e + dy) (TextElement.fontSize e)
    (TextElement.color e) (TextElement.fontFamily e)
    (TextElement.strokeWidth e) (TextElement.strokeColor e)
    (TextElement.layer e).

(** [t.id === selectedTextId], where [selectedTextId] may be [null]. *)
Definition isSelected (sel : option string) (t : TextElement.t) : bool :=
  match sel with
  | Some id => String.eqb (TextElement.id t) id
  | None => false
  end.

(** [onChange] of the text input (line 1023). *)
Definition editContent (v : string) (s : Designer.t) : Designer.t :=
  setTextElements
    (map (fun t => if isSelected (selectedTextId s) t then withContent v t
                   else t) (textElements s))
    (setTextInput v s).

(** [onChange] of the size slider (line 1042). *)
Definition editSize (size : R) (s : Designer.t) : Designer.t :=
  setTextElements
    (map (fun t => if isSelected (selectedTextId s) t then withFontSize size t
                   else t) (textElements s))
    (setTextSize size s).

(** [onChange] of the text colour input (line 1060). *)
Definition editColor (color : string) (s : Designer.t) : Designer.t :=
  setTextElements
    (map (fun t => if isSelected (selectedTextId s) t then withColor color t
                   else t) (textElements s))
    (setTextColor color s).

(** The "Update selected text" effect (lines 375-391), run when the size,
    colour, font or stroke setting has changed. *)
Definition restyleSelected (s : Designer.t) : Designer.t :=
  match selectedTextId s with
  | Some sel =>
      if JS.truthy sel then
        match JS.find (fun t => String.eqb (TextElement.id t) sel)
                (textElements s) with
        | Some _ =>
            setTextElements
              (map (fun t =>
                      if String.eqb (TextElement.id t) sel
                      then
                        TextElement.mk (TextElement.id t)
                          (JS.or_else (textInput s) (TextElement.content t))
                          (TextElement.x t) (TextElement.y t) (textSize s)
                          (textColor s) (fontFamily s)
                          (strokeWidthOf (textStroke s) 0.3%R 0.6%R)
                          (Some (if String.eqb (textColor s) "#ffffff"
                                 then "#000000" else "#ffffff"))
                          (TextElement.layer t)
                      else t) (textElements s)) s
        | None => s
        end
      else s
  | None => s
  end.

(** [centerImage], without its toast. *)
Definition centerImage (s : Designer.t) : Designer.t :=
  setImagePosition (8%R, 20%R) s.

(** The state variables that [Designer.t] leaves out: the opacity of the
    image, the drag in progress and the share identifier of the loaded
    design. *)
Module Session.
Record t := mk {
  designer : Designer.t;
  dragging : option (ElementType * option string);
  dragStart : R * R;
  imageOpacity : R;
  currentShareId : option string
}.
End Session.

(** A pointer event as the handlers read it: the client coordinates of
    the mouse or of the first touch, and the surface at that moment,
    that is the inverse of its screen matrix when it is mounted. *)
Record PointerEvent := mkPointerEvent {
  surface : option (R * R -> R * R);
  client : R * R
}.

(** [getSVGPoint]. *)
Definition getSVGPoint (e : PointerEvent) : R * R :=
  match surface e with
  | None => (0%R, 0%R)
  | Some toBoard => toBoard (client e)
  end.

(** [handleDragStart]. *)
Definition handleDragStart (e : PointerEvent) (type : ElementType)
           (id : option string) (st : Session.t) : Session.t :=
  let point := getSVGPoint e in
  let s := Session.designer st in
  let s' :=
    match type, id with
    | text, Some i =>
        if JS.truthy i then
          let s1 := setSelectedTextId (Some i) s in
          match JS.find (fun t => String.eqb (TextElement.id t) i)
                  (textElements s) with
          | Some t => setTextInput (TextElement.content t) s1
          | None => s1
          end
        else s
    | _, _ => s
    end in
  Session.mk s' (Some (type, id)) point (Session.imageOpacity st)
    (Session.currentShareId st).

(** [handleDragMove].  The window calls it, as the listener that the
    effect of lines 447-461 attached after some render; [seen] is the
    state of that render.  The closure reads [dragging] and [dragStart]
    there, while the positions are updated from the latest state
    ([prev => ...]). *)
Definition handleDragMove (seen : Session.t) (e : PointerEvent)
           (st : Session.t) : Session.t :=
  match Session.dragging seen with
  | None => st
  | Some (type, id) =>
      let point := getSVGPoint e in
      let dx := (fst point - fst (Session.dragStart seen))%R in
      let dy := (snd point - snd (Session.dragStart seen))%R in
      let s := Session.designer st in
      let s' :=
        match type with
        | image =>
            setImagePosition
              (fst (imagePosition s) + dx, snd (imagePosition s) + dy)%R s
        | text =>
            match id with
            | Some i =>
                if JS.truthy i then
                  setTextElements
                    (map (fun t => if String.eqb (TextElement.id t) i
                                   then movedBy dx dy t else t)
                       (textElements s)) s
                else s
            | None => s
            end
        end in
      Session.mk s' (Session.dragging st) point (Session.imageOpacity st)
        (Session.currentShareId st)
  end.

(** [handleDragEnd]. *)
Definition handleDragEnd (st : Session.t) : Session.t :=
  Session.mk (Session.designer st) None (Session.dragStart st)
    (Session.imageOpacity st) (Session.currentShareId st).

(** The pointer moves of one drag, in order, when the component renders
    and its effect attaches the new listener between one move and the
    next: each move is handled by the closure that has seen the state
    the move before has left. *)
Definition dragThrough (moves : list PointerEvent) (st : Session.t)
  : Session.t :=
  fold_left (fun st e => handleDragMove st e st) moves st.

(** Pointer moves that arrive before the effect of the next render has
    run: all of them reach the listener of one closure, which has seen
    [seen]. *)
Definition dragBurst (seen : Session.t) (moves : list PointerEvent)
           (st : Session.t) : Session.t :=
  fold_left (fun st e => handleDragMove seen e st) moves st.

(** The sum of the ways from [start] to each of the points of the
    moves. *)
Definition waysFrom (start : R * R) (moves : list PointerEvent) : R * R :=
  fold_right
    (fun e acc =>
       (fst acc + (fst (getSVGPoint e) - fst start),
        snd acc + (snd (getSVGPoint e) - snd start))%R)
    (0%R, 0%R) moves.

(** Where the pointer is after the moves, on the board. *)
Definition lastPoint (moves : list PointerEvent) (start : R * R) : R * R :=
  last (map getSVGPoint moves) start.

Lemma last_cons {A : Type} (l : list A) (a d : A) :
  last (a :: l) d = last l a.
Proof.
  revert a d. induction l as [|b l IH]; intros a d; [reflexivity|].
  change (last (a :: b :: l) d) with (last (b :: l) d).
  now rewrite (IH b d), (IH b a).
Qed.

Lemma lastPoint_cons (e : PointerEvent) (moves : list PointerEvent)
      (start : R * R) :
  lastPoint (e :: moves) start = lastPoint moves (getSVGPoint e).
Proof. unfold lastPoint. simpl map. apply last_cons. Qed.

(** X4.  Real arithmetic stands for the doubles.  While the image is
    dragged and the component renders between one pointer move and the
    next, so that each move is handled by a fresh closure, after any
    pointer moves the image's centre has moved by exactly the way of the
    pointer on the board since the drag began, whatever the path and
    the surface's scale at each event; the text elements are untouched
    and the drag goes on from the last point. *)
Theorem drag_image_follows_pointer
        (moves : list PointerEvent) (st : Session.t) (id : option string) :
  Session.dragging st = Some (image, id) ->
  let st' := dragThrough moves st in
  let p0 := Session.dragStart st in
  let p := lastPoint moves p0 in
  let c := imagePosition (Session.designer st) in
  imagePosition (Session.designer st')
  = (fst c + (fst p - fst p0), snd c + (snd p - snd p0))%R
  /\ textElements (Session.designer st')
     = textElements (Session.designer st)
  /\ Session.dragStart st' = p
  /\ Session.dragging st' = Some (image, id).
Proof.
  cbv zeta. revert st. induction moves as [|e moves IH]; intros st Hd.
  - change (lastPoint [] (Session.dragStart st))
      with (Session.dragStart st).
    simpl. repeat split; try assumption.
    destruct (imagePosition (Session.designer st)) as [cx cy]. simpl.
    f_equal; ring.
  - change (dragThrough (e :: moves) st)
      with (dragThrough moves (handleDragMove st e st)).
    rewrite lastPoint_cons.
    assert (handleDragMove st e st
            = Session.mk
                (setImagePosition
                   (fst (imagePosition (Session.designer st))
                    + (fst (getSVGPoint e) - fst (Session.dragStart st)),
                    snd (imagePosition (Session.designer st))
                    + (snd (getSVGPoint e) - snd (Session.dragStart st)))%R
                   (Session.designer st))
                (Some (image, id)) (getSVGPoint e)
                (Session.imageOpacity st) (Session.currentShareId st)) as E
      by (unfold handleDragMove; now rewrite Hd).
    destruct (IH (handleDragMove st e st)) as (Hp & Ht & Hs & Hg);
      [now rewrite E|].
    rewrite Hp, Ht, Hs, Hg, E. simpl.
    repeat split. f_equal; ring.
Qed.

Lemma drag_image_follows_pointer_witness :
  let st := Session.mk initial (Some (image, None)) (1%R, 1%R) 100%R None in
  let moves :=
    [mkPointerEvent (Some (fun p => p)) (2%R, 5%R);
     mkPointerEvent None (0%R, 0%R);
     mkPointerEvent (Some (fun p => p)) (4%R, 3%R)] in
  imagePosition (Session.designer (dragThrough moves st))
  = (8 + (4 - 1), 20 + (3 - 1))%R.
Proof.
  cbv zeta.
  exact (proj1 (drag_image_follows_pointer
                  [mkPointerEvent (Some (fun p => p)) (2%R, 5%R);
                   mkPointerEvent None (0%R, 0%R);
                   mkPointerEvent (Some (fun p => p)) (4%R, 3%R)]
                  (Session.mk initial (Some (image, None)) (1%R, 1%R) 100%R None)
                  None eq_refl)).
Defined.

Lemma movedBy_movedBy (a b c d : R) (t : TextElement.t) :
  movedBy c d (movedBy a b t) = movedBy (a + c) (b + d) t.
Proof. unfold movedBy. simpl. f_equal; ring. Qed.

Lemma movedBy_zero (a b : R) (t : TextElement.t) :
  movedBy (a - a) (b - b) t = t.
Proof. destruct t. unfold movedBy. simpl. f_equal; ring. Qed.

(** X5.  Real arithmetic stands for the doubles.  While the text
    element [i] is dragged and the component renders between one
    pointer move and the next, so that each move is handled by a fresh
    closure, after any pointer moves the elements with that identifier
    have moved by exactly the way of the pointer on the board since the
    drag began; every other text element and the image are where they
    were. *)
Theorem drag_text_follows_pointer
        (moves : list PointerEvent) (st : Session.t) (i : string) :
  Session.dragging st = Some (text, Some i) ->
  JS.truthy i = true ->
  let st' := dragThrough moves st in
  let p0 := Session.dragStart st in
  let p := lastPoint moves p0 in
  textElements (Session.designer st')
  = map (fun t => if String.eqb (TextElement.id t) i
                  then movedBy (fst p - fst p0) (snd p - snd p0) t else t)
      (textElements (Session.designer st))
  /\ imagePosition (Session.designer st')
     = imagePosition (Session.designer st)
  /\ Session.dragStart st' = p
  /\ Session.dragging st' = Some (text, Some i).
Proof.
  cbv zeta. intros Hd Hi. revert st Hd.
  induction moves as [|e moves IH]; intros st Hd.
  - change (lastPoint [] (Session.dragStart st))
      with (Session.dragStart st).
    simpl. repeat split; try assumption.
    rewrite <- (map_id (textElements (Session.designer st))) at 1.
    apply map_ext. intros t.
    destruct (String.eqb _ _); [now rewrite movedBy_zero|reflexivity].
  - change (dragThrough (e :: moves) st)
      with (dragThrough moves (handleDragMove st e st)).
    rewrite lastPoint_cons.
    assert (handleDragMove st e st
            = Session.mk
                (setTextElements
                   (map (fun t =>
                           if String.eqb (TextElement.id t) i
                           then movedBy
                                  (fst (getSVGPoint e)
                                   - fst (Session.dragStart st))
                                  (snd (getSVGPoint e)
                                   - snd (Session.dragStart st)) t
                           else t)
                      (textElements (Session.designer st)))
                   (Session.designer st))
                (Some (text, Some i)) (getSVGPoint e)
                (Session.imageOpacity st) (Session.currentShareId st)) as E
      by (unfold handleDragMove; now rewrite Hd, Hi).
    destruct (IH (handleDragMove st e st)) as (Ht & Hp & Hs & Hg);
      [now rewrite E|].
    rewrite Ht, Hp, Hs, Hg, E. simpl.
    repeat split. rewrite map_map. apply map_ext. intros t.
    destruct (String.eqb (TextElement.id t) i) eqn:Ei; simpl; rewrite Ei;
      [|reflexivity].
    rewrite movedBy_movedBy. f_equal; ring.
Qed.

Lemma drag_text_follows_pointer_witness :
  let st := Session.mk twoTexts (Some (text, Some "1")) (1%R, 1%R) 100%R None in
  let moves :=
    [mkPointerEvent (Some (fun p => p)) (2%R, 5%R);
     mkPointerEvent (Some (fun p => p)) (4%R, 3%R)] in
  map TextElement.id
    (textElements (Session.designer (dragThrough moves st)))
  = ["1"; "2"]
  /\ imagePosition (Session.designer (dragThrough moves st)) = (8%R, 20%R).
Proof.
  cbv zeta.
  destruct (drag_text_follows_pointer
              [mkPointerEvent (Some (fun p => p)) (2%R, 5%R);
               mkPointerEvent (Some (fun p => p)) (4%R, 3%R)]
              (Session.mk twoTexts (Some (text, Some "1")) (1%R, 1%R) 100%R None)
              "1" eq_refl eq_refl) as (Ht & Hp & _).
  split; [rewrite Ht; reflexivity|exact Hp].
Defined.

(** X21.  Real arithmetic stands for the doubles.  Pointer moves that
    reach the listener of one closure all count from the drag start that
    this closure has seen, while the position accumulates: after such a
    burst the image's centre has moved by the sum of the ways from that
    start to each point, and not by the way of the pointer.  After two
    moves the way to the first point counts twice. *)
Theorem drag_burst_counts_from_seen_start
        (moves : list PointerEvent) (seen st : Session.t)
        (id : option string) :
  Session.dragging seen = Some (image, id) ->
  let st' := dragBurst seen moves st in
  let p0 := Session.dragStart seen in
  let c := imagePosition (Session.designer st) in
  imagePosition (Session.designer st')
  = (fst c + fst (waysFrom p0 moves), snd c + snd (waysFrom p0 moves))%R
  /\ Session.dragStart st' = lastPoint moves (Session.dragStart st)
  /\ forall e1 e2,
       moves = [e1; e2] ->
       imagePosition (Session.designer st')
       = (fst c + (fst (getSVGPoint e2) - fst p0)
          + (fst (getSVGPoint e1) - fst p0),
          snd c + (snd (getSVGPoint e2) - snd p0)
          + (snd (getSVGPoint e1) - snd p0))%R.
Proof.
  cbv zeta. intros Hd.
  assert (forall e cur,
             handleDragMove seen e cur
             = Session.mk
                 (setImagePosition
                    (fst (imagePosition (Session.designer cur))
                     + (fst (getSVGPoint e) - fst (Session.dragStart seen)),
                     snd (imagePosition (Session.designer cur))
                     + (snd (getSVGPoint e) - snd (Session.dragStart seen)))%R
                    (Session.designer cur))
                 (Session.dragging cur) (getSVGPoint e)
                 (Session.imageOpacity cur) (Session.currentShareId cur))
    as E by (intros e cur; unfold handleDragMove; now rewrite Hd).
  assert (forall ms cur,
             imagePosition (Session.designer (dragBurst seen ms cur))
             = (fst (imagePosition (Session.designer cur))
                + fst (waysFrom (Session.dragStart seen) ms),
                snd (imagePosition (Session.designer cur))
                + snd (waysFrom (Session.dragStart seen) ms))%R
             /\ Session.dragStart (dragBurst seen ms cur)
                = lastPoint ms (Session.dragStart cur)) as H.
  { induction ms as [|e ms IH]; intros cur.
    - change (lastPoint [] (Session.dragStart cur))
        with (Session.dragStart cur).
      simpl. split; [|reflexivity].
      destruct (imagePosition (Session.designer cur)) as [cx cy]. simpl.
      f_equal; ring.
    - change (dragBurst seen (e :: ms) cur)
        with (dragBurst seen ms (handleDragMove seen e cur)).
      rewrite lastPoint_cons.
      destruct (IH (handleDragMove seen e cur)) as [Hp Hs].
      rewrite Hp, Hs, E. simpl. split; [|reflexivity]. f_equal; ring. }
  destruct (H moves st) as [Hp Hs].
  split; [exact Hp|]. split; [exact Hs|].
  intros e1 e2 ->. rewrite Hp. simpl. f_equal; ring.
Qed.

Lemma drag_burst_counts_from_seen_start_witness :
  let st := Session.mk initial (Some (image, None)) (1%R, 1%R) 100%R None in
  let moves :=
    [mkPointerEvent (Some (fun p => p)) (2%R, 5%R);
     mkPointerEvent (Some (fun p => p)) (4%R, 3%R)] in
  imagePosition (Session.designer (dragBurst st moves st))
  = (8 + (4 - 1) + (2 - 1), 20 + (3 - 1) + (5 - 1))%R.
Proof.
  cbv zeta.
  exact (proj2 (proj2 (drag_burst_counts_from_seen_start
                         [mkPointerEvent (Some (fun p => p)) (2%R, 5%R);
                          mkPointerEvent (Some (fun p => p)) (4%R, 3%R)]
                         (Session.mk initial (Some (image, None))
                            (1%R, 1%R) 100%R None)
                         (Session.mk initial (Some (image, None))
                            (1%R, 1%R) 100%R None)
                         None eq_refl))
           _ _ eq_refl).
Defined.

(** The edits that are not about layers. *)
Inductive Edit :=
| EditContent (v : string)
| EditSize (size : R)
| EditColor (color : string)
| RestyleSelected
| CenterImage
| DragStart (e : PointerEvent) (type : ElementType) (id : option string)
| DragMove (seen : Session.t) (e : PointerEvent)
| DragEnd.

Definition onSession (f : Designer.t -> Designer.t) (st : Session.t)
  : Session.t :=
  Session.mk (f (Session.designer st)) (Session.dragging st)
    (Session.dragStart st) (Session.imageOpacity st)
    (Session.currentShareId st).

Definition edit (a : Edit) (st : Session.t) : Session.t :=
  match a with
  | EditContent v => onSession (editContent v) st
  | EditSize size => onSession (editSize size) st
  | EditColor color => onSession (editColor color) st
  | RestyleSelected => onSession restyleSelected st
  | CenterImage => onSession centerImage st
  | DragStart e type id => handleDragStart e type id st
  | DragMove seen e => handleDragMove seen e st
  | DragEnd => handleDragEnd st
  end.

Lemma layers_kept_by_map (s s' : Designer.t)
      (f : TextElement.t -> TextElement.t) :
  (forall t, TextElement.id (f t) = TextElement.id t) ->
  (forall t, TextElement.layer (f t) = TextElement.layer t) ->
  textElements s' = map f (textElements s) ->
  imageLayer s' = imageLayer s ->
  ids s' = ids s
  /\ allLayers s' = allLayers s
  /\ forall e, layerOf s' e = layerOf s e.
Proof.
  intros Hid Hly Et Ei. unfold ids, allLayers. rewrite Et, Ei, !map_map.
  split; [now apply map_ext|]. split.
  - f_equal. now apply map_ext.
  - intros [|j]; simpl; [now rewrite Ei|].
    rewrite Et, find_hasId_map by assumption.
    destruct (JS.find _ _); simpl; [now rewrite Hly|reflexivity].
Qed.

Lemma layers_kept_same (s s' : Designer.t) :
  textElements s' = textElements s ->
  imageLayer s' = imageLayer s ->
  ids s' = ids s
  /\ allLayers s' = allLayers s
  /\ forall e, layerOf s' e = layerOf s e.
Proof.
  intros Et Ei. apply (layers_kept_by_map s s' (fun t => t)); auto.
  now rewrite map_id.
Qed.

Ltac kept_by_map :=
  eapply layers_kept_by_map; cycle 2; [reflexivity|reflexivity|..].

(** X6.  Editing the selected text's content, size or colour, the
    restyle effect, centring the image and every step of a drag leave
    the identifier and the layer of every element as they were: no edit
    of this kind reorders the scene or breaks its well-formedness. *)
Theorem edits_keep_layers (a : Edit) (st : Session.t) :
  let s := Session.designer st in
  let s' := Session.designer (edit a st) in
  ids s' = ids s
  /\ allLayers s' = allLayers s
  /\ (forall e, layerOf s' e = layerOf s e)
  /\ (wfScene s -> wfScene s').
Proof.
  cbv zeta.
  assert (ids (Session.designer (edit a st)) = ids (Session.designer st)
          /\ allLayers (Session.designer (edit a st))
             = allLayers (Session.designer st)
          /\ forall e, layerOf (Session.designer (edit a st)) e
                       = layerOf (Session.designer st) e) as H.
  { destruct a as [v|size|color| | |e type id|seen e| ]; simpl.
    - kept_by_map; intros t; cbv beta; now destruct (isSelected _ t).
    - kept_by_map; intros t; cbv beta; now destruct (isSelected _ t).
    - kept_by_map; intros t; cbv beta; now destruct (isSelected _ t).
    - unfold restyleSelected.
      destruct (selectedTextId (Session.designer st)) as [sel|];
        [|now apply layers_kept_same].
      destruct (JS.truthy sel); [|now apply layers_kept_same].
      destruct (JS.find _ _); [|now apply layers_kept_same].
      kept_by_map; intros t; cbv beta; now destruct (String.eqb _ _).
    - now apply layers_kept_same.
    - apply layers_kept_same; destruct type, id as [i|]; simpl;
        try reflexivity;
        destruct (JS.truthy i); try reflexivity;
        now destruct (JS.find _ _).
    - unfold handleDragMove.
      destruct (Session.dragging seen) as [[type id]|];
        [|now apply layers_kept_same].
      destruct type; simpl; [now apply layers_kept_same|].
      destruct id as [i|]; [|now apply layers_kept_same].
      destruct (JS.truthy i); [|now apply layers_kept_same].
      kept_by_map; intros t; cbv beta; now destruct (String.eqb _ _).
    - now apply layers_kept_same. }
  destruct H as (Hi & Hl & Ho).
  split; [exact Hi|]. split; [exact Hl|]. split; [exact Ho|].
  unfold wfScene. now rewrite Hi, Hl.
Qed.

Lemma edits_keep_layers_witness :
  wfScene topText
  /\ wfScene
       (Session.designer
          (edit (DragMove
                   (Session.mk topText (Some (text, Some "2")) (1%R, 1%R)
                      100%R None)
                   (mkPointerEvent None (3%R, 4%R)))
             (Session.mk topText (Some (text, Some "2")) (1%R, 1%R) 100%R
                None))).
Proof.
  assert (wfScene topText) as Hwf.
  { split; vm_compute; repeat constructor; simpl; intuition discriminate. }
  split; [exact Hwf|].
  apply (edits_keep_layers
           (DragMove
              (Session.mk topText (Some (text, Some "2")) (1%R, 1%R) 100%R
                 None)
              (mkPointerEvent None (3%R, 4%R)))
           (Session.mk topText (Some (text, Some "2")) (1%R, 1%R) 100%R
                None)).
  exact Hwf.
Defined.

(** ** The move buttons of the text list (designer.tsx, lines 955-960) *)

(** [Math.min(...xs)], as [JS.max_or]. *)
Definition min_or (default : Z) (xs : list Z) : Z :=
  match xs with
  | [] => default
  | x :: xs' => fold_left Z.min xs' x
  end.

(** [canMoveUp] and [canMoveDown] of the row of [t]; [allLayers] always
    holds the image's layer, so the defaults are not used. *)
Definition canMoveUp (s : Designer.t) (t : TextElement.t) : bool :=
  TextElement.layer t <? JS.max_or 0 (allLayers s).

Definition canMoveDown (s : Designer.t) (t : TextElement.t) : bool :=
  TextElement.layer t >? min_or 0 (allLayers s).

Lemma fold_max_in (ys : list Z) (y : Z) :
  In (fold_left Z.max ys y) (y :: ys).
Proof.
  revert y. induction ys as [|z ys IH]; simpl; intros y; [now left|].
  destruct (IH (Z.max y z)) as [E|H]; [|now right; right].
  rewrite <- E. destruct (Z.max_spec y z) as [[_ ->]|[_ ->]]; auto.
Qed.

Lemma fold_min_in (ys : list Z) (y : Z) :
  In (fold_left Z.min ys y) (y :: ys).
Proof.
  revert y. induction ys as [|z ys IH]; simpl; intros y; [now left|].
  destruct (IH (Z.min y z)) as [E|H]; [|now right; right].
  rewrite <- E. destruct (Z.min_spec y z) as [[_ ->]|[_ ->]]; auto.
Qed.

Lemma fold_min_le (ys : list Z) (y : Z) :
  fold_left Z.min ys y <= y
  /\ forall x, In x ys -> fold_left Z.min ys y <= x.
Proof.
  revert y. induction ys as [|z ys IH]; simpl; intros y.
  - split; [lia|intros ? []].
  - destruct (IH (Z.min y z)) as [H1 H2]. split; [lia|].
    intros x [->|Hx]; [lia|now apply H2].
Qed.

Lemma allLayers_layerOf (s : Designer.t) (l : Z) :
  NoDup (ids s) ->
  In l (allLayers s) <-> exists e, layerOf s e = Some l.
Proof.
  intros Hnd. unfold allLayers. rewrite in_app_iff. split.
  - intros [H|[<-|[]]]; [|now exists Image].
    apply in_map_iff in H. destruct H as (t & <- & Ht).
    exists (Text (TextElement.id t)). simpl. now rewrite find_hasId_In.
  - intros ([|j] & H).
    + right. left. simpl in H. congruence.
    + left. now apply (layerOf_text_in s j).
Qed.

(** X7.  On a scene whose text elements have distinct identifiers and
    layers, the move-up button of a text row is disabled exactly when
    [moveLayerUp] of that text would return the scene unchanged, and
    the move-down button exactly when [moveLayerDown] would. *)
Theorem move_button_disabled_iff_noop (s : Designer.t) (t : TextElement.t) :
  wfTexts s ->
  In t (textElements s) ->
  (canMoveUp s t = false <-> moveLayerUp (TextElement.id t) s = s)
  /\ (canMoveDown s t = false <-> moveLayerDown (TextElement.id t) s = s).
Proof.
  intros Hwf Ht. pose proof Hwf as [Hid _].
  assert (layerOf s (Text (TextElement.id t)) = Some (TextElement.layer t))
    as HL by (simpl; now rewrite find_hasId_In).
  assert (allLayers s <> []) as Hne
    by (unfold allLayers; intros E; now apply app_eq_nil in E).
  split.
  - unfold canMoveUp. rewrite Z.ltb_ge.
    change (moveLayerUp (TextElement.id t) s)
      with (moveUp (Text (TextElement.id t)) s).
    destruct (swapsUp_wf s _ Hwf _ HL)
      as [[Hmax Heq]|(n & ln & Hn & Hlt & _ & Hex)].
    + split; [intros _; exact Heq|intros _].
      destruct (allLayers s) as [|y ys] eqn:E; [congruence|]. simpl.
      pose proof (fold_max_in ys y) as Hin. rewrite <- E in Hin.
      apply (allLayers_layerOf s _ Hid) in Hin. destruct Hin as (e & He).
      now apply (Hmax e).
    + split.
      * intros Hle. exfalso.
        assert (In ln (allLayers s)) as Hin
          by (apply (allLayers_layerOf s ln Hid); now exists n).
        apply (max_or_ge 0) in Hin. lia.
      * intros Heq. exfalso. destruct Hex as (Ha & _).
        rewrite Heq, HL, Hn in Ha. injection Ha. lia.
  - unfold canMoveDown.
    assert (forall a b, (a >? b) = false <-> a <= b) as Hgt
      by (intros a b; rewrite Z.gtb_ltb, Z.ltb_ge; reflexivity).
    rewrite Hgt.
    change (moveLayerDown (TextElement.id t) s)
      with (moveDown (Text (TextElement.id t)) s).
    destruct (swapsDown_wf s _ Hwf _ HL)
      as [[Hmin Heq]|(n & ln & Hn & Hlt & _ & Hex)].
    + split; [intros _; exact Heq|intros _].
      destruct (allLayers s) as [|y ys] eqn:E; [congruence|]. simpl.
      pose proof (fold_min_in ys y) as Hin. rewrite <- E in Hin.
      apply (allLayers_layerOf s _ Hid) in Hin. destruct Hin as (e & He).
      now apply (Hmin e).
    + split.
      * intros Hle. exfalso.
        assert (In ln (allLayers s)) as Hin
          by (apply (allLayers_layerOf s ln Hid); now exists n).
        destruct (allLayers s) as [|y ys] eqn:E; [congruence|].
        simpl in Hle. destruct (fold_min_le ys y) as [H1 H2].
        destruct Hin as [<-|Hin]; [lia|]. apply H2 in Hin. lia.
      * intros Heq. exfalso. destruct Hex as (Ha & _).
        rewrite Heq, HL, Hn in Ha. injection Ha. lia.
Qed.

Lemma move_button_disabled_iff_noop_witness :
  let t := TextElement.mk "2" "New Text" 16%R 50%R 6%R "#0f172a" "Impact"
             0%R None 1 in
  canMoveUp twoTexts t = false
  /\ moveLayerUp "2" twoTexts = twoTexts.
Proof.
  cbv zeta.
  assert (wfTexts twoTexts) as Hwf.
  { split; vm_compute; repeat constructor; simpl; intuition discriminate. }
  assert (In (TextElement.mk "2" "New Text" 16%R 50%R 6%R "#0f172a" "Impact"
                0%R None 1) (textElements twoTexts)) as Hin
    by (right; now left).
  destruct (move_button_disabled_iff_noop twoTexts _ Hwf Hin) as [[Hup _] _].
  split; [reflexivity|]. apply Hup. reflexivity.
Defined.

(** ** Deleting a text box (designer.tsx, lines 134-141) *)

Lemma find_after_delete (l : list TextElement.t) (id j : string) :
  JS.find (hasId j)
    (filter (fun t => negb (String.eqb (TextElement.id t) id)) l)
  = if String.eqb j id then None else JS.find (hasId j) l.
Proof.
  unfold JS.find. induction l as [|t l IH]; simpl.
  - now destruct (String.eqb j id).
  - unfold hasId at 2.
    destruct (String.eqb_spec (TextElement.id t) id) as [E|E]; simpl.
    + rewrite IH. destruct (String.eqb_spec j id) as [Ej|Ej];
        [reflexivity|].
      destruct (String.eqb_spec (TextElement.id t) j); congruence.
    + unfold hasId at 1.
      destruct (String.eqb_spec (TextElement.id t) j) as [Ej|Ej].
      * destruct (String.eqb_spec j id); congruence.
      * exact IH.
Qed.

Lemma textElements_deleteTextBox (id : string) (s : Designer.t) :
  textElements (deleteTextBox id s)
  = filter (fun t => negb (String.eqb (TextElement.id t) id))
      (textElements s).
Proof.
  unfold deleteTextBox. destruct (selectedTextId s) as [sel|];
    [destruct (String.eqb sel id)|]; reflexivity.
Qed.

(** X8.  [deleteTextBox] removes the text elements that have the
    identifier and renumbers nothing: the identifier no longer names an
    element, every other element, the image included, keeps its layer,
    a later [moveLayerUp] or [moveLayerDown] of the deleted identifier
    does nothing, and the selection is cleared when it was the deleted
    text. *)
Theorem delete_renumbers_nothing (id : string) (s : Designer.t) :
  let s' := deleteTextBox id s in
  layerOf s' (Text id) = None
  /\ (forall e, e <> Text id -> layerOf s' e = layerOf s e)
  /\ moveLayerUp id s' = s'
  /\ moveLayerDown id s' = s'
  /\ (selectedTextId s = Some id ->
      selectedTextId s' = None /\ textInput s' = "")
  /\ (selectedTextId s <> Some id ->
      selectedTextId s' = selectedTextId s /\ textInput s' = textInput s).
Proof.
  cbv zeta.
  assert (layerOf (deleteTextBox id s) (Text id) = None) as Hnone.
  { simpl. rewrite textElements_deleteTextBox, find_after_delete.
    now rewrite String.eqb_refl. }
  assert (JS.find (fun t => String.eqb (TextElement.id t) id)
            (textElements (deleteTextBox id s)) = None) as Hfind.
  { simpl in Hnone. fold (hasId id).
    now destruct (JS.find (hasId id) _). }
  split; [exact Hnone|]. split; [|split; [|split; [|split]]].
  - intros [|j] He; simpl.
    + unfold deleteTextBox. destruct (selectedTextId s) as [sel|];
        [destruct (String.eqb sel id)|]; reflexivity.
    + rewrite textElements_deleteTextBox, find_after_delete.
      destruct (String.eqb_spec j id); [congruence|reflexivity].
  - unfold moveLayerUp. now rewrite Hfind.
  - unfold moveLayerDown. now rewrite Hfind.
  - intros E. unfold deleteTextBox. rewrite E, String.eqb_refl.
    split; reflexivity.
  - intros E. unfold deleteTextBox.
    destruct (selectedTextId s) as [sel|] eqn:Es;
      [|split; [exact Es|reflexivity]].
    destruct (String.eqb_spec sel id); [congruence|].
    split; [exact Es|reflexivity].
Qed.

(** ** Ties in the compositor (designer.tsx, lines 727-739) *)

Section Stable.
Context {A : Type}.
Variables (cmp : A -> A -> Z) (key : A -> Z).
Hypothesis cmp_key : forall a b, cmp a b <= 0 <-> key a <= key b.

Lemma insert_stable (k : Z) (a : A) (l : list A) :
  filter (fun b => key b =? k) (JS.insert cmp a l)
  = filter (fun b => key b =? k) (a :: l).
Proof.
  induction l as [|b l IH]; [reflexivity|].
  simpl JS.insert. destruct (cmp a b <=? 0) eqn:C; [reflexivity|].
  apply Z.leb_gt in C.
  assert (key b < key a) as Hlt.
  { destruct (Z.le_gt_cases (key a) (key b)) as [Hle|]; [|lia].
    apply cmp_key in Hle. lia. }
  simpl. simpl in IH. rewrite IH.
  destruct (Z.eqb_spec (key a) k), (Z.eqb_spec (key b) k);
    try reflexivity. lia.
Qed.

Lemma sort_stable (k : Z) (l : list A) :
  filter (fun b => key b =? k) (JS.sort cmp l)
  = filter (fun b => key b =? k) l.
Proof.
  induction l as [|a l IH]; [reflexivity|].
  simpl JS.sort. fold (JS.sort cmp l). rewrite insert_stable.
  simpl. now rewrite IH.
Qed.

End Stable.

(** X9.  Where layers tie, [layerElements] keeps the order of the
    pushes: among the entries of any one layer the image, when it is
    there, comes first and is drawn behind, and the text elements
    follow in the order of [textElements]. *)
Theorem layerElements_ties_in_push_order (s : Designer.t) (k : Z) :
  filter (fun e => LayerElement.layer e =? k) (layerElements s)
  = (if JS.truthy (imageUrl s) && (imageLayer s =? k)
     then [imageEntry s] else [])
    ++ map textEntry
         (filter (fun t => TextElement.layer t =? k) (textElements s)).
Proof.
  unfold layerElements.
  rewrite (sort_stable _ LayerElement.layer) by (intros a b; lia).
  unfold layerEntries. rewrite filter_app. f_equal.
  - destruct (JS.truthy (imageUrl s)); [|reflexivity]. simpl.
    now destruct (imageLayer s =? k).
  - induction (textElements s) as [|t l IH]; [reflexivity|]. simpl.
    destruct (TextElement.layer t =? k); simpl; now rewrite IH.
Qed.

(** ** The batch export dialog (designer.tsx, lines 1226-1229, 1332-1360) *)

From Stdlib Require Import HexadecimalString.

(** [s.padStart(n, '0')]. *)
Definition padStart0 (n : nat) (s : string) : string :=
  String.append
    (string_of_list_ascii (repeat "0"%char (n - String.length s))) s.

(** [n.toString(16)] for a natural number. *)
Definition toHex (n : Z) : string :=
  HexadecimalString.NilZero.string_of_uint (N.to_hex_uint (Z.to_N n)).

(** ['#' + Math.floor(Math.random()*16777215).toString(16).padStart(6, '0')],
    [n] being the floored random number. *)
Definition randomColor (n : Z) : string :=
  String "#" (padStart0 6 (toHex n)).

(** [batchColors.includes(v)]. *)
Definition includes (v : string) (l : list string) : bool :=
  existsb (String.eqb v) l.

(** [batchColors.filter((_, idx) => idx !== i)]. *)
Fixpoint removeAt (i : nat) (l : list string) : list string :=
  match l, i with
  | [], _ => []
  | _ :: l', O => l'
  | c :: l', S j => c :: removeAt j l'
  end.

(** The "Batch Export" button. *)
Definition openBatchExport (s : Designer.t) : Designer.t :=
  setBatchExportOpen true (setBatchColors [backgroundColor s] s).

(** [onChange] of the dialog's colour input and the body of "Add
    Random", for the value [v]. *)
Definition addBatchColor (v : string) (s : Designer.t) : Designer.t :=
  if includes v (batchColors s) then s
  else setBatchColors (batchColors s ++ [v]) s.

(** The button of the colour at index [i]. *)
Definition removeBatchColor (i : nat) (s : Designer.t) : Designer.t :=
  setBatchColors (removeAt i (batchColors s)) s.

Inductive DialogAction :=
| PickColor (v : string)
| AddRandom (n : Z)
| RemoveColor (i : nat).

Definition dialogStep (a : DialogAction) (s : Designer.t) : Designer.t :=
  match a with
  | PickColor v => addBatchColor v s
  | AddRandom n => addBatchColor (randomColor n) s
  | RemoveColor i => removeBatchColor i s
  end.

(** The dialog, from the click that opens it. *)
Definition dialog (actions : list DialogAction) (s : Designer.t)
  : Designer.t :=
  fold_left (fun s a => dialogStep a s) actions (openBatchExport s).

(** The colour input hands over a colour in ["#"] notation. *)
Definition pickedHex (a : DialogAction) : Prop :=
  match a with
  | PickColor v => hexColor v
  | _ => True
  end.

Lemma includes_In (v : string) (l : list string) :
  includes v l = false -> ~ In v l.
Proof.
  unfold includes. intros H Hin.
  assert (existsb (String.eqb v) l = true) as Ht
    by (apply existsb_exists; exists v; split;
        [assumption|apply String.eqb_refl]).
  congruence.
Qed.

Lemma removeAt_incl (i : nat) (l : list string) (c : string) :
  In c (removeAt i l) -> In c l.
Proof.
  revert i. induction l as [|d l IH]; intros [|j]; simpl; auto.
  intros [->|H]; [now left|right; eauto].
Qed.

Lemma removeAt_NoDup (i : nat) (l : list string) :
  NoDup l -> NoDup (removeAt i l).
Proof.
  revert i. induction l as [|d l IH]; intros [|j] H; simpl;
    try assumption; inversion H as [|? ? Hd Hl]; subst; [assumption|].
  constructor; [|now apply IH].
  intros Hin. apply Hd. eapply removeAt_incl. exact Hin.
Qed.

Lemma dialogStep_distinct (a : DialogAction) (s : Designer.t) :
  NoDup (batchColors s) -> NoDup (batchColors (dialogStep a s)).
Proof.
  intros H.
  assert (forall v, NoDup (batchColors (addBatchColor v s))) as Hadd.
  { intros v. unfold addBatchColor.
    destruct (includes v (batchColors s)) eqn:E; [assumption|].
    simpl. apply NoDup_snoc; [assumption|now apply includes_In]. }
  destruct a as [v|n|i]; simpl; [apply Hadd|apply Hadd|].
  now apply removeAt_NoDup.
Qed.

Lemma dialogStep_hex (a : DialogAction) (s : Designer.t) :
  pickedHex a ->
  Forall hexColor (batchColors s) ->
  Forall hexColor (batchColors (dialogStep a s)).
Proof.
  intros Ha H.
  assert (forall v, hexColor v ->
                    Forall hexColor (batchColors (addBatchColor v s)))
    as Hadd.
  { intros v Hv. unfold addBatchColor.
    destruct (includes v (batchColors s)); [assumption|].
    simpl. apply Forall_app. split; [assumption|now constructor]. }
  destruct a as [v|n|i]; simpl.
  - now apply Hadd.
  - apply Hadd. now eexists.
  - rewrite Forall_forall in *. intros c Hc. apply H.
    eapply removeAt_incl. exact Hc.
Qed.

Lemma dialog_steps_distinct (actions : list DialogAction) :
  forall s0, NoDup (batchColors s0) ->
             NoDup (batchColors
                      (fold_left (fun s a => dialogStep a s) actions s0)).
Proof.
  induction actions as [|a actions IH]; intros s0 H; simpl; [assumption|].
  apply IH. now apply dialogStep_distinct.
Qed.

Lemma dialog_steps_hex (actions : list DialogAction) :
  Forall pickedHex actions ->
  forall s0, Forall hexColor (batchColors s0) ->
             Forall hexColor
               (batchColors
                  (fold_left (fun s a => dialogStep a s) actions s0)).
Proof.
  induction 1 as [|a actions Ha Hall IH]; intros s0 H; simpl; [assumption|].
  apply IH. now apply dialogStep_hex.
Qed.

(** X10.  The variant list the dialog builds never holds a colour
    twice, whatever is picked, added at random or removed after the
    dialog is opened.  If moreover the background colour and the picked
    colours are in ["#"] notation, the variants stay distinct once the
    ["#"] is removed, so that the rasters of a batch get distinct
    names. *)
Theorem dialog_colors_distinct (actions : list DialogAction)
        (s : Designer.t) :
  let colors := batchColors (dialog actions s) in
  NoDup colors
  /\ (hexColor (backgroundColor s) ->
      Forall pickedHex actions ->
      Forall hexColor colors
      /\ NoDup (map (JS.remove_first "#"%char) colors)
      /\ NoDup (map (entryName (designName s)) colors)).
Proof.
  cbv zeta. unfold dialog.
  assert (NoDup
            (batchColors
               (fold_left (fun s a => dialogStep a s) actions
                  (openBatchExport s)))) as Hnd.
  { apply dialog_steps_distinct. simpl. repeat constructor. intros []. }
  split; [exact Hnd|]. intros Hb Hall.
  assert (Forall hexColor
            (batchColors
               (fold_left (fun s a => dialogStep a s) actions
                  (openBatchExport s)))) as Hhex.
  { apply dialog_steps_hex; [assumption|]. simpl. now repeat constructor. }
  pose proof (hexColors_stripped _ Hnd Hhex) as Hs.
  split; [exact Hhex|]. split; [exact Hs|].
  apply NoDup_map_in; [|assumption].
  intros c d Hc Hd E. apply entryName_inj in E.
  eapply NoDup_map_eq; eauto.
Qed.

Lemma dialog_colors_distinct_witness :
  let s :=
    dialog [PickColor "#000000"; AddRandom 255; PickColor "#000000";
            RemoveColor 0] initial in
  batchColors s = ["#000000"; "#0000ff"]
  /\ NoDup (map (entryName (designName initial)) (batchColors s)).
Proof.
  cbv zeta. split; [vm_compute; reflexivity|].
  apply (dialog_colors_distinct
           [PickColor "#000000"; AddRandom 255; PickColor "#000000";
            RemoveColor 0] initial).
  - now eexists.
  - repeat constructor; now eexists.
Defined.

(** ** Variants without a surface (designer.tsx, line 549) *)




Section CaptureMounted.
Variables (host : nat -> Frame) (designName : string) (base : Designer.t).


End CaptureMounted.







(** ** Saving and loading a design (designer.tsx, lines 250-266, 668-695) *)

(** A text element of a stored configuration; an old one may lack its
    [layer]. *)
Module StoredText.
Record t := mk {
  id : string;
  content : string;
  x : R;
  y : R;
  fontSize : R;
  color : string;
  fontFamily : string;
  strokeWidth : R;
  strokeColor : option string;
  layer : option Z
}.
End StoredText.

(** [design.config as DesignConfig]: the stored JSON, any field of which
    may be missing. *)
Module DesignConfig.
Record t := mk {
  backgroundColor : option string;
  showGuides : option bool;
  imageUrl : option string;
  imageScale : option R;
  imageRotation : option R;
  imageOpacity : option R;
  imageFlipped : option bool;
  imageX : option R;
  imageY : option R;
  imageLayer : option Z;
  textElements : option (list StoredText.t)
}.
End DesignConfig.

(** The fields of a [SavedDesign] that the component reads. *)
Module SavedDesign.
Record t := mk {
  shareId : string;
  name : string;
  config : DesignConfig.t
}.
End SavedDesign.

Definition toStored (t : TextElement.t) : StoredText.t :=
  StoredText.mk (TextElement.id t) (TextElement.content t) (TextElement.x t)
    (TextElement.y t) (TextElement.fontSize t) (TextElement.color t)
    (TextElement.fontFamily t) (TextElement.strokeWidth t)
    (TextElement.strokeColor t) (Some (TextElement.layer t)).

(** [getCurrentConfig]. *)
Definition getCurrentConfig (st : Session.t) : DesignConfig.t :=
  let s := Session.designer st in
  DesignConfig.mk (Some (backgroundColor s)) (Some (showGuides s))
    (Some (imageUrl s)) (Some (imageScale s / 100)%R)
    (Some (imageRotation s)) (Some (Session.imageOpacity st / 100)%R)
    (Some (imageFlipped s)) (Some (fst (imagePosition s)))
    (Some (snd (imagePosition s))) (Some (imageLayer s))
    (Some (map toStored (textElements s))).

(** [a || d] on numbers: [undefined] and [0] are falsy. *)
Definition orNumber (a : option R) (d : R) : R :=
  match a with
  | Some v => if Req_EM_T v 0 then d else v
  | None => d
  end.

Definition orInteger (a : option Z) (d : Z) : Z :=
  match a with
  | Some v => if v =? 0 then d else v
  | None => d
  end.

(** [a || d] on strings and booleans, [a ?? d]. *)
Definition orString (a : option string) (d : string) : string :=
  match a with Some v => JS.or_else v d | None => d end.

Definition orBool (a : option bool) (d : bool) : bool :=
  match a with Some v => v || d | None => d end.

Definition nullish {A : Type} (a : option A) (d : A) : A :=
  match a with Some v => v | None => d end.

(** [l.map((t, index) => f(t, index))], from index [i] on. *)
Fixpoint mapIndexed {A B : Type} (f : A -> nat -> B) (i : nat) (l : list A)
  : list B :=
  match l with
  | [] => []
  | a :: l' => f a i :: mapIndexed f (S i) l'
  end.

(** [{ ...t, layer: t.layer ?? index }]. *)
Definition loadText (t : StoredText.t) (index : nat) : TextElement.t :=
  TextElement.mk (StoredText.id t) (StoredText.content t) (StoredText.x t)
    (StoredText.y t) (StoredText.fontSize t) (StoredText.color t)
    (StoredText.fontFamily t) (StoredText.strokeWidth t)
    (StoredText.strokeColor t)
    (nullish (StoredText.layer t) (Z.of_nat index)).

Inductive Notice := DesignLoaded (name : string).

(** [!currentShareId]. *)
Definition noShareId (id : option string) : bool :=
  match id with Some i => negb (JS.truthy i) | None => true end.

(** The "Handle design loading" effect; [data] is
    [loadedDesignQuery.data]. *)
Definition loadDesign (data : option SavedDesign.t) (st : Session.t)
  : Session.t * option Notice :=
  match data with
  | Some design =>
      if noShareId (Session.currentShareId st) then
        let config := SavedDesign.config design in
        let s :=
          setDesignName (SavedDesign.name design)
            (setTextElements
               (mapIndexed loadText 0
                  (nullish (DesignConfig.textElements config) []))
               (setImageLayer (orInteger (DesignConfig.imageLayer config) 0)
                  (setImagePosition
                     (orNumber (DesignConfig.imageX config) 8,
                      orNumber (DesignConfig.imageY config) 20)
                     (setImageFlipped
                        (orBool (DesignConfig.imageFlipped config) false)
                        (setImageRotation
                           (orNumber (DesignConfig.imageRotation config) 0)
                           (setImageScale
                              (orNumber (DesignConfig.imageScale config) 1
                               * 100)%R
                              (setImageUrl
                                 (orString (DesignConfig.imageUrl config) "")
                                 (setShowGuides
                                    (nullish (DesignConfig.showGuides config)
                                       true)
                                    (setBackgroundColor
                                       (orString
                                          (DesignConfig.backgroundColor
                                             config) "#ffffff")
                                       (Session.designer st)))))))))) in
        (Session.mk s (Session.dragging st) (Session.dragStart st)
           (orNumber (DesignConfig.imageOpacity config) 1 * 100)%R
           (Some (SavedDesign.shareId design)),
         Some (DesignLoaded (SavedDesign.name design)))
      else (st, None)
  | None => (st, None)
  end.

Arguments orNumber : simpl never.
Arguments orInteger : simpl never.

Lemma mapIndexed_toStored (l : list TextElement.t) :
  forall i, mapIndexed loadText i (map toStored l) = l.
Proof.
  induction l as [|t l IH]; intros i; simpl; [reflexivity|].
  rewrite IH. f_equal. now destruct t.
Qed.

Lemma orNumber_zero (v : R) : orNumber (Some v) 0 = v.
Proof. unfold orNumber. now destruct (Req_EM_T v 0). Qed.

Lemma orInteger_zero (v : Z) : orInteger (Some v) 0 = v.
Proof. unfold orInteger. now destruct (Z.eqb_spec v 0). Qed.

(** X13.  Loading what [getCurrentConfig] gave restores the text
    elements with their layers, the image's layer, source, flip and
    rotation and the guides flag exactly, in whatever session it is
    loaded; an empty background colour comes back as [#ffffff], and a
    centre coordinate that was 0 comes back as the default 8 or 20;
    the name and share identifier are those of the saved design, and
    the effect does not load again while the share identifier is set.
    (Scale and opacity pass through a division and a multiplication by
    100 and are left out.) *)
Theorem load_restores_saved_design
        (saved st : Session.t) (shareId name : string) :
  noShareId (Session.currentShareId st) = true ->
  let design := SavedDesign.mk shareId name (getCurrentConfig saved) in
  let st' := fst (loadDesign (Some design) st) in
  let d := Session.designer saved in
  let d' := Session.designer st' in
  textElements d' = textElements d
  /\ imageLayer d' = imageLayer d
  /\ imageUrl d' = imageUrl d
  /\ imageFlipped d' = imageFlipped d
  /\ imageRotation d' = imageRotation d
  /\ showGuides d' = showGuides d
  /\ backgroundColor d' = JS.or_else (backgroundColor d) "#ffffff"
  /\ fst (imagePosition d')
     = (if Req_EM_T (fst (imagePosition d)) 0 then 8%R
        else fst (imagePosition d))
  /\ snd (imagePosition d')
     = (if Req_EM_T (snd (imagePosition d)) 0 then 20%R
        else snd (imagePosition d))
  /\ designName d' = name
  /\ Session.currentShareId st' = Some shareId
  /\ (JS.truthy shareId = true ->
      loadDesign (Some design) st' = (st', None)).
Proof.
  cbv zeta. intros Hno. unfold loadDesign at 1 2 3 4 5 6 7 8 9 10 11.
  rewrite Hno. simpl.
  rewrite mapIndexed_toStored, orNumber_zero, orInteger_zero.
  repeat split.
  - now destruct (imageUrl (Session.designer saved)).
  - now destruct (imageFlipped (Session.designer saved)).
  - intros Ht. unfold loadDesign. rewrite Hno. simpl. now rewrite Ht.
Qed.

Lemma load_restores_saved_design_witness :
  let saved := Session.mk topText None (0%R, 0%R) 100%R None in
  let st := Session.mk initial None (0%R, 0%R) 100%R None in
  let st' :=
    fst (loadDesign
           (Some (SavedDesign.mk "share-1" "Deck" (getCurrentConfig saved)))
           st) in
  textElements (Session.designer st') = textElements topText
  /\ imageLayer (Session.designer st') = imageLayer topText.
Proof.
  cbv zeta.
  destruct (load_restores_saved_design
              (Session.mk topText None (0%R, 0%R) 100%R None)
              (Session.mk initial None (0%R, 0%R) 100%R None)
              "share-1" "Deck" eq_refl) as (Ht & Hl & _).
  split; assumption.
Defined.

Lemma mapIndexed_legacy (l : list StoredText.t) :
  Forall (fun t => StoredText.layer t = None) l ->
  forall i,
    map TextElement.layer (mapIndexed loadText i l)
    = map Z.of_nat (seq i (List.length l)).
Proof.
  induction 1 as [|t l Ht Hl IH]; intros i; simpl; [reflexivity|].
  rewrite Ht, IH. reflexivity.
Qed.

Lemma mapIndexed_ids (l : list StoredText.t) :
  forall i,
    map TextElement.id (mapIndexed loadText i l) = map StoredText.id l.
Proof.
  induction l as [|t l IH]; intros i; simpl; [reflexivity|].
  now rewrite IH.
Qed.

(** X14.  A stored design whose text elements all lack a layer is
    loaded with the layers 0, 1, 2, ... in list order, pairwise
    distinct among the text elements; when the configuration has no
    image layer either, the image is put at layer 0, the layer of the
    first text element. *)
Theorem load_legacy_layers
        (design : SavedDesign.t) (texts : list StoredText.t)
        (st : Session.t) :
  noShareId (Session.currentShareId st) = true ->
  DesignConfig.textElements (SavedDesign.config design) = Some texts ->
  Forall (fun t => StoredText.layer t = None) texts ->
  let s' := Session.designer (fst (loadDesign (Some design) st)) in
  textLayers s' = map Z.of_nat (seq 0 (List.length texts))
  /\ NoDup (textLayers s')
  /\ ids s' = map StoredText.id texts
  /\ (DesignConfig.imageLayer (SavedDesign.config design) = None ->
      imageLayer s' = 0
      /\ (texts <> [] -> ~ NoDup (allLayers s'))).
Proof.
  cbv zeta. intros Hno Ht Hall. unfold loadDesign. rewrite Hno.
  unfold textLayers, ids, allLayers. simpl. rewrite Ht. simpl.
  rewrite (mapIndexed_legacy texts Hall 0).
  split; [reflexivity|]. split; [|split].
  - apply NoDup_map_inj; [apply Nat2Z.inj|apply seq_NoDup].
  - apply mapIndexed_ids.
  - intros Hi. rewrite Hi. unfold orInteger. split; [reflexivity|].
    intros Hne Hnd. destruct texts as [|t l]; [congruence|].
    simpl in Hnd. inversion Hnd as [|? ? Hin _]; subst. apply Hin.
    apply in_or_app. right. now left.
Qed.

Lemma load_legacy_layers_witness :
  let texts :=
    [StoredText.mk "a" "One" 16%R 50%R 6%R "#0f172a" "Impact" 0%R None None;
     StoredText.mk "b" "Two" 16%R 60%R 6%R "#0f172a" "Impact" 0%R None None]
  in
  let design :=
    SavedDesign.mk "share-1" "Deck"
      (DesignConfig.mk None None None None None None None None None None
         (Some texts)) in
  let s' :=
    Session.designer
      (fst (loadDesign (Some design)
              (Session.mk initial None (0%R, 0%R) 100%R None))) in
  textLayers s' = [0; 1] /\ imageLayer s' = 0.
Proof.
  cbv zeta.
  destruct (load_legacy_layers
              (SavedDesign.mk "share-1" "Deck"
                 (DesignConfig.mk None None None None None None None None
                    None None
                    (Some
                       [StoredText.mk "a" "One" 16%R 50%R 6%R "#0f172a"
                          "Impact" 0%R None None;
                        StoredText.mk "b" "Two" 16%R 60%R 6%R "#0f172a"
                          "Impact" 0%R None None])))
              _ (Session.mk initial None (0%R, 0%R) 100%R None)
              eq_refl eq_refl)
    as (Hl & _ & _ & Hi).
  - repeat constructor.
  - split; [exact Hl|]. now apply Hi.
Defined.

(** ** Where a new text box is drawn (designer.tsx, lines 113-132, 727-739) *)




(** ** Creation beyond the safe integers (designer.tsx, lines 116, 127) *)

(** A scene whose one text element is at layer [2 ^ 53], as a saved
    design can hold. *)
Definition atLimit : Designer.t :=
  setTextElements
    [TextElement.mk "1" "New Text" 16%R 50%R 6%R "#0f172a" "Impact" 0%R
       None (2 ^ 53)] initial.

(** X22.  Beyond the safe integers [maxLayer + 1] rounds back: on every
    scene whose greatest text layer is [2 ^ 53], [addTextBox] gives the
    new text element the layer [2 ^ 53] again, so that two text
    elements share a layer. *)
Theorem creation_ties_beyond_safe (now : Z) (s : Designer.t) :
  JS.max_or (-1) (textLayers s) = 2 ^ 53 ->
  exists new,
    textElements (addTextBox now s) = textElements s ++ [new]
    /\ TextElement.layer new = 2 ^ 53
    /\ In (2 ^ 53) (textLayers s)
    /\ ~ NoDup (textLayers (addTextBox now s)).
Proof.
  intros Hmax.
  assert (In (2 ^ 53) (textLayers s)) as Hin.
  { rewrite <- Hmax. destruct (textLayers s) as [|y ys] eqn:E.
    - simpl in Hmax. vm_compute in Hmax. discriminate Hmax.
    - simpl. apply fold_max_in. }
  eexists. split; [reflexivity|].
  assert (JS.plus1 (JS.max_or (-1) (map TextElement.layer (textElements s)))
          = 2 ^ 53) as Hnew.
  { unfold textLayers in Hmax. rewrite Hmax. vm_compute. reflexivity. }
  split; [exact Hnew|]. split; [exact Hin|].
  unfold textLayers. simpl. rewrite map_app. simpl. rewrite Hnew.
  intros Hnd. apply NoDup_remove_2 in Hnd. rewrite app_nil_r in Hnd.
  apply Hnd. exact Hin.
Qed.

Lemma creation_ties_beyond_safe_witness :
  exists new,
    textElements (addTextBox 2 atLimit) = textElements atLimit ++ [new]
    /\ TextElement.layer new = 2 ^ 53
    /\ In (2 ^ 53) (textLayers atLimit)
    /\ ~ NoDup (textLayers (addTextBox 2 atLimit)).
Proof.
  apply (creation_ties_beyond_safe 2 atLimit). vm_compute. reflexivity.
Defined.

(** * Object storage behind the upload (server/objectStorage.ts, server/routes.ts) *)

(** ** JavaScript string primitives *)

(** [s.split(sep)] for a one-character separator. *)
Fixpoint split (sep : ascii) (s : string) : list string :=
  match s with
  | EmptyString => [EmptyString]
  | String c s' =>
      if Ascii.eqb c sep then EmptyString :: split sep s'
      else
        match split sep s' with
        | h :: t => String c h :: t
        | [] => [String c EmptyString]
        end
  end.

(** [l.join(sep)]. *)
Fixpoint join (sep : string) (l : list string) : string :=
  match l with
  | [] => EmptyString
  | a :: l' =>
      match l' with
      | [] => a
      | _ => String.append a (String.append sep (join sep l'))
      end
  end.

(** [s.startsWith(p)] and [s.substring(n)]. *)
Definition startsWith (p s : string) : bool := String.prefix p s.

Fixpoint substringFrom (n : nat) (s : string) : string :=
  match n, s with
  | O, _ => s
  | S n', String _ s' => substringFrom n' s'
  | S _, EmptyString => EmptyString
  end.

(** ** The service *)

Inductive StorageError :=
| NotConfigured      (* [Error("DEFAULT_OBJECT_STORAGE_BUCKET_ID not configured")] *)
| ObjectNotFound     (* [ObjectNotFoundError] *)
| Rejected.          (* the promise of [file.exists()] rejected *)

(** [bucket.file(path)]: a bucket name and an object name. *)
Definition File := (string * string)%type.

(** What the service reads from its surroundings: the environment
    variables, the answer of [file.exists()] ([None] when the promise
    rejects), the [pathname] of a parsed URL ([None] when [new URL]
    throws) and [String.prototype.trim]. Request bodies are strings. *)
Record Host := mkHost {
  DEFAULT_OBJECT_STORAGE_BUCKET_ID : option string;
  PRIVATE_OBJECT_DIR : option string;
  PUBLIC_OBJECT_SEARCH_PATHS : option string;
  exists_ : File -> option bool;
  pathname : string -> option string;
  trim : string -> string
}.


(** [normalizeObjectEntityPath]. *)
Definition normalizeObjectEntityPath (h : Host) (uploadURL : string)
  : string :=
  match pathname h uploadURL with
  | Some path =>
      let pathParts := filter JS.truthy (split "/"%char path) in
      if (2 <=? List.length pathParts)%nat then join "/" (tl pathParts)
      else uploadURL
  | None => uploadURL
  end.

(** The object key that [getObjectEntityUploadURL] asks a signed URL
    for, where [objectId] is what [randomUUID()] returned. *)
Definition objectKey (h : Host) (objectId : string) : string :=
  let privateDir := orString (PRIVATE_OBJECT_DIR h) ".private" in
  let cleanPrivateDir :=
    if startsWith "/" privateDir then substringFrom 1 privateDir
    else privateDir in
  let dirParts := split "/"%char cleanPrivateDir in
  if (1 <? List.length dirParts)%nat
  then String.append (join "/" (tl dirParts)) (String.append "/" objectId)
  else String.append ".private/" objectId.

(** [Array.from(new Set(l))]: the first occurrences, in order. *)
Fixpoint distinct (l : list string) : list string :=
  match l with
  | [] => []
  | a :: l' =>
      a :: filter (fun b => negb (String.eqb b a)) (distinct l')
  end.

(** [getPublicObjectSearchPaths]. *)
Definition getPublicObjectSearchPaths (h : Host) : list string :=
  let pathsStr := orString (PUBLIC_OBJECT_SEARCH_PATHS h) "" in
  distinct (filter (fun p => (0 <? String.length p)%nat)
              (map (trim h) (split ","%char pathsStr))).

(** The loop of [searchPublicObject] over the search paths. *)
Fixpoint searchIn (h : Host) (searchPaths : list string) (filePath : string)
  : option File + StorageError :=
  match searchPaths with
  | [] => inl None
  | searchPath :: rest =>
      let parts := filter JS.truthy (split "/"%char searchPath) in
      if (List.length parts <? 2)%nat then searchIn h rest filePath
      else
        let bucketName := hd EmptyString parts in
        let prefix := join "/" (tl parts) in
        let fullPath :=
          if JS.truthy prefix
          then String.append prefix (String.append "/" filePath)
          else filePath in
        match exists_ h (bucketName, fullPath) with
        | Some true => inl (Some (bucketName, fullPath))
        | Some false => searchIn h rest filePath
        | None => inr Rejected
        end
  end.

Definition searchPublicObject (h : Host) (filePath : string)
  : option File + StorageError :=
  searchIn h (getPublicObjectSearchPaths h) filePath.

(** ** The routes of the upload *)

Inductive Response :=
| Download (file : File)                     (* [downloadObject(file, res)] *)
| SendStatus (code : Z)
| Json (code : Z) (fields : list (string * string)).




(** The route [GET /public-objects/...]. *)
Definition getPublicObjects (h : Host) (filePath : string) : Response :=
  match searchPublicObject h filePath with
  | inl (Some file) => Download file
  | inl None => Json 404 [("error", "File not found")]
  | inr _ => Json 500 [("error", "Internal server error")]
  end.

(** ** Facts about the string primitives *)

Lemma split_cons (sep : ascii) (s : string) :
  exists h t, split sep s = h :: t.
Proof.
  induction s as [|c s IH]; simpl.
  - eexists _, _; reflexivity.
  - destruct (Ascii.eqb c sep).
    + eexists _, _; reflexivity.
    + destruct IH as (h & t & ->). eexists _, _; reflexivity.
Qed.

Lemma join_push (sep : string) (c : ascii) (h : string) (t : list string) :
  join sep (String c h :: t) = String c (join sep (h :: t)).
Proof. destruct t; reflexivity. Qed.

Lemma join_more (sep a b : string) (t : list string) :
  join sep (a :: b :: t)
  = String.append a (String.append sep (join sep (b :: t))).
Proof. reflexivity. Qed.

(** Joining what [split] gave with the separator gives the string
    back. *)
Lemma join_split (sep : ascii) (s : string) :
  join (String sep EmptyString) (split sep s) = s.
Proof.
  induction s as [|c s IH]; simpl; [reflexivity|].
  destruct (Ascii.eqb c sep) eqn:E.
  - apply Ascii.eqb_eq in E. subst c.
    destruct (split_cons sep s) as (h & t & Hs).
    rewrite Hs in *. rewrite join_more, IH. reflexivity.
  - destruct (split_cons sep s) as (h & t & Hs).
    rewrite Hs in *. rewrite join_push, IH. reflexivity.
Qed.

(** A string without the separator. *)
Fixpoint free (sep : ascii) (s : string) : bool :=
  match s with
  | EmptyString => true
  | String c s' => negb (Ascii.eqb c sep) && free sep s'
  end.

Lemma split_free_then (sep : ascii) (b k : string) :
  free sep b = true ->
  split sep (String.append b (String sep k)) = b :: split sep k.
Proof.
  induction b as [|c b IH]; simpl; intros Hb.
  - rewrite Ascii.eqb_refl. reflexivity.
  - apply andb_true_iff in Hb as [Hc Hb].
    apply negb_true_iff in Hc. rewrite Hc, (IH Hb). reflexivity.
Qed.

Lemma startsWith_append (p s : string) :
  startsWith p (String.append p s) = true.
Proof.
  unfold startsWith. induction p as [|c p IH]; simpl.
  - destruct s; reflexivity.
  - destruct (ascii_dec c c); [exact IH|congruence].
Qed.


Lemma split_append (sep : ascii) (a k : string) :
  split sep (String.append a (String sep k)) = split sep a ++ split sep k.
Proof.
  induction a as [|c a IH]; simpl.
  - rewrite Ascii.eqb_refl. reflexivity.
  - destruct (Ascii.eqb c sep); rewrite IH; [reflexivity|].
    destruct (split_cons sep a) as (h & t & ->). reflexivity.
Qed.

Lemma split_free (sep : ascii) (b : string) :
  free sep b = true -> split sep b = [b].
Proof.
  induction b as [|c b IH]; simpl; intros Hb; [reflexivity|].
  apply andb_true_iff in Hb as [Hc Hb].
  apply negb_true_iff in Hc. rewrite Hc, (IH Hb). reflexivity.
Qed.

Lemma filter_all (l : list string) :
  Forall (fun p => JS.truthy p = true) l -> filter JS.truthy l = l.
Proof.
  induction 1 as [|p l Hp _ IH]; simpl; [reflexivity|].
  rewrite Hp, IH. reflexivity.
Qed.

(** The path [/bucket/key] of a URL normalises to [key]. *)
Lemma normalize_bucket_key (h : Host) (url bucket key : string) :
  pathname h url
  = Some (String "/" (String.append bucket (String "/" key))) ->
  JS.truthy bucket = true ->
  free "/" bucket = true ->
  Forall (fun p => JS.truthy p = true) (split "/" key) ->
  normalizeObjectEntityPath h url = key.
Proof.
  intros Hp Hb Hf Hk. unfold normalizeObjectEntityPath. rewrite Hp.
  cbn [split]. rewrite Ascii.eqb_refl.
  rewrite (split_free_then "/" bucket key Hf).
  cbn [filter JS.truthy]. rewrite Hb.
  rewrite (filter_all _ Hk).
  destruct (split_cons "/" key) as (k0 & t & Hs).
  rewrite Hs. cbn [List.length Nat.leb tl].
  rewrite <- Hs. apply (join_split "/"%char).
Qed.

Lemma truthy_append (a b : string) :
  JS.truthy a = true -> JS.truthy (String.append a b) = true.
Proof. destruct a; [discriminate|reflexivity]. Qed.

Lemma truthy_join (sep a : string) (l : list string) :
  JS.truthy a = true -> JS.truthy (join sep (a :: l)) = true.
Proof.
  intros Ha. destruct l; [exact Ha|].
  rewrite join_more. apply truthy_append, Ha.
Qed.

(** What [distinct] keeps. *)
Lemma distinct_In (l : list string) (p : string) :
  In p (distinct l) <-> In p l.
Proof.
  induction l as [|a l IH]; simpl; [tauto|].
  rewrite filter_In, IH, negb_true_iff, String.eqb_neq.
  destruct (string_dec a p) as [->|Hn]; [tauto|].
  split; [tauto|]. intros [E|Hin]; [tauto|].
  right. split; [exact Hin|congruence].
Qed.

Lemma distinct_NoDup (l : list string) : NoDup (distinct l).
Proof.
  induction l as [|a l IH]; simpl; constructor.
  - rewrite filter_In, String.eqb_refl. intros [_ H]. discriminate.
  - apply NoDup_filter, IH.
Qed.

(** A successful search found the object in the bucket that a
    configured path names, under the rest of that path. *)
Lemma searchIn_found (h : Host) (paths : list string) (filePath : string)
      (f : File) :
  searchIn h paths filePath = inl (Some f) ->
  exists_ h f = Some true
  /\ exists searchPath bucket p1 rest,
       In searchPath paths
       /\ filter JS.truthy (split "/" searchPath) = bucket :: p1 :: rest
       /\ f = (bucket,
               String.append (join "/" (p1 :: rest))
                 (String "/" filePath)).
Proof.
  induction paths as [|sp paths IH]; simpl; [discriminate|].
  remember (filter JS.truthy (split "/" sp)) as parts eqn:Ep.
  assert (Forall (fun p => JS.truthy p = true) parts) as Hall.
  { subst parts. apply Forall_forall. intros p Hp.
    apply filter_In in Hp. tauto. }
  destruct (List.length parts <? 2)%nat eqn:El.
  { intros H. destruct (IH H) as (He & sp' & b & q & r & Hin & Hr).
    split; [exact He|]. exists sp', b, q, r. tauto. }
  destruct parts as [|b [|p1 t]]; try discriminate El.
  cbn [hd tl].
  assert (JS.truthy p1 = true) as Hp1
      by (inversion Hall as [|? ? _ H2]; inversion H2; assumption).
  rewrite (truthy_join "/" p1 t Hp1).
  intros H.
  destruct (exists_ h (b, _)) as [[|]|] eqn:Ee; try discriminate H.
  - injection H as <-. split; [exact Ee|].
    exists sp, b, p1, t. split; [left; reflexivity|].
    split; [symmetry; exact Ep|reflexivity].
  - destruct (IH H) as (He & sp' & b' & q & r & Hin & Hr).
    split; [exact He|]. exists sp', b', q, r. tauto.
Qed.

(** ** Properties of the object routes *)




Definition sampleHost : Host :=
  mkHost (Some "repl-default") (Some "/repl-default/.private/uploads")
         (Some "/repl-default/public, ,/repl-default/public,/shared/assets")
         (fun f => Some (String.eqb (fst f) "repl-default"))
         (fun url =>
            if String.eqb url "https://storage.test/repl-default/.private/uploads/u1"
            then Some "/repl-default/.private/uploads/u1" else None)
         (fun s => if String.eqb s " " then "" else s).


(** X17. [normalizeObjectEntityPath] strips the origin and the bucket: for
    a URL whose path is [/bucket/key], with a non-empty bucket name and a
    key without empty segments, the result is [key] unchanged. *)
Theorem normalize_strips_bucket (h : Host) (url bucket key : string) :
  pathname h url
  = Some (String "/" (String.append bucket (String "/" key))) ->
  JS.truthy bucket = true ->
  free "/" bucket = true ->
  Forall (fun p => JS.truthy p = true) (split "/" key) ->
  normalizeObjectEntityPath h url = key.
Proof. exact (normalize_bucket_key h url bucket key). Qed.

Lemma normalize_strips_bucket_witness :
  normalizeObjectEntityPath sampleHost
    "https://storage.test/repl-default/.private/uploads/u1"
  = ".private/uploads/u1".
Proof.
  apply (normalize_strips_bucket sampleHost _ "repl-default");
    [reflexivity | reflexivity | reflexivity |].
  repeat constructor.
Defined.

(** X18. With [PRIVATE_OBJECT_DIR] set to [/bucket/dir], the key that
    [getObjectEntityUploadURL] has signed is [dir/objectId], and
    normalising a signed URL whose path is that key under a bucket gives
    the same key back: what the client later requests is what was
    uploaded. *)
Theorem upload_key_round_trip
        (h : Host) (bucket dir objectId url signedBucket : string) :
  PRIVATE_OBJECT_DIR h
  = Some (String "/" (String.append bucket (String "/" dir))) ->
  free "/" bucket = true ->
  Forall (fun p => JS.truthy p = true) (split "/" dir) ->
  JS.truthy objectId = true ->
  free "/" objectId = true ->
  pathname h url
  = Some (String "/" (String.append signedBucket
                        (String "/" (objectKey h objectId)))) ->
  JS.truthy signedBucket = true ->
  free "/" signedBucket = true ->
  objectKey h objectId = String.append dir (String "/" objectId)
  /\ normalizeObjectEntityPath h url = objectKey h objectId.
Proof.
  intros Hdir Hfb Hd Hid Hfid Hp Hsb Hfsb.
  assert (objectKey h objectId = String.append dir (String "/" objectId))
    as Hkey.
  { unfold objectKey. rewrite Hdir.
    cbn [orString JS.or_else].
    change (String "/" (String.append bucket (String "/" dir)))
      with (String.append "/" (String.append bucket (String "/" dir))).
    rewrite startsWith_append.
    cbv beta zeta.
    change (substringFrom 1
              (String.append "/" (String.append bucket (String "/" dir))))
      with (String.append bucket (String "/" dir)).
    rewrite (split_free_then "/" bucket dir Hfb).
    destruct (split_cons "/" dir) as (d0 & t & Hs).
    rewrite Hs. cbn [List.length Nat.ltb Nat.leb tl].
    rewrite <- Hs, (join_split "/"%char). reflexivity. }
  split; [exact Hkey|].
  apply (normalize_bucket_key h url signedBucket _ Hp Hsb Hfsb).
  rewrite Hkey, split_append, (split_free "/" objectId Hfid).
  apply Forall_app. split; [exact Hd|].
  constructor; [exact Hid|constructor].
Qed.

Lemma upload_key_round_trip_witness :
  objectKey sampleHost "u1" = ".private/uploads/u1"
  /\ normalizeObjectEntityPath sampleHost
       "https://storage.test/repl-default/.private/uploads/u1"
     = objectKey sampleHost "u1".
Proof.
  apply (upload_key_round_trip sampleHost "repl-default" ".private/uploads"
           "u1" "https://storage.test/repl-default/.private/uploads/u1"
           "repl-default");
    try reflexivity.
  repeat constructor.
Defined.

(** X19. [getPublicObjectSearchPaths] returns every non-empty trimmed
    piece of the comma-separated variable, and nothing else, each one
    once. *)
Theorem public_search_paths_clean (h : Host) :
  NoDup (getPublicObjectSearchPaths h)
  /\ forall p,
       In p (getPublicObjectSearchPaths h) <->
       p <> EmptyString
       /\ exists piece,
            In piece
              (split "," (orString (PUBLIC_OBJECT_SEARCH_PATHS h) ""))
            /\ trim h piece = p.
Proof.
  unfold getPublicObjectSearchPaths. split; [apply distinct_NoDup|].
  intros p. rewrite distinct_In, filter_In, in_map_iff.
  assert ((0 <? String.length p)%nat = true <-> p <> EmptyString) as ->.
  { destruct p; simpl; split; intros H;
      try reflexivity; try discriminate.
    exfalso. apply H. reflexivity. }
  split.
  - intros [(piece & Ht & Hin) Hp]. split; [exact Hp|].
    exists piece. split; assumption.
  - intros [Hp (piece & Hin & Ht)]. split; [|exact Hp].
    exists piece. split; assumption.
Qed.

(** X20. When [searchPublicObject] finds a file, the file exists, its
    bucket is the first segment of a configured search path and its name
    is the requested path below the non-empty rest of that search path;
    the route answers with that download. A search path that names only
    a bucket is never used, so nothing is served from a bucket's root. *)
Theorem public_object_found_under_prefix
        (h : Host) (filePath : string) (f : File) :
  searchPublicObject h filePath = inl (Some f) ->
  exists_ h f = Some true
  /\ getPublicObjects h filePath = Download f
  /\ exists searchPath bucket p1 rest,
       In searchPath (getPublicObjectSearchPaths h)
       /\ filter JS.truthy (split "/" searchPath) = bucket :: p1 :: rest
       /\ JS.truthy (join "/" (p1 :: rest)) = true
       /\ f = (bucket,
               String.append (join "/" (p1 :: rest))
                 (String "/" filePath)).
Proof.
  intros H. unfold getPublicObjects. rewrite H.
  destruct (searchIn_found h _ filePath f H)
    as (He & sp & b & p1 & rest & Hin & Hparts & Hf).
  split; [exact He|]. split; [reflexivity|].
  exists sp, b, p1, rest.
  split; [exact Hin|]. split; [exact Hparts|]. split; [|exact Hf].
  apply truthy_join.
  assert (In p1 (filter JS.truthy (split "/" sp))) as Hp1
      by (rewrite Hparts; right; left; reflexivity).
  apply filter_In in Hp1. tauto.
Qed.

Lemma public_object_found_under_prefix_witness :
  exists_ sampleHost ("repl-default", "public/logo.svg") = Some true
  /\ getPublicObjects sampleHost "logo.svg"
     = Download ("repl-default", "public/logo.svg")
  /\ exists searchPath bucket p1 rest,
       In searchPath (getPublicObjectSearchPaths sampleHost)
       /\ filter JS.truthy (split "/" searchPath) = bucket :: p1 :: rest
       /\ JS.truthy (join "/" (p1 :: rest)) = true
       /\ ("repl-default", "public/logo.svg")
          = (bucket,
             String.append (join "/" (p1 :: rest)) (String "/" "logo.svg")).
Proof.
  exact (public_object_found_under_prefix sampleHost "logo.svg"
           ("repl-default", "public/logo.svg") eq_refl).
Defined.
